(** * list-docker-registry-images: the fan-out pipeline, embedded in Rocq

    The two Go files of the repository ([list_docker_registry_images.go] and
    [regman.go]) contain the same pipeline: one goroutine lists the
    repositories of a registry, one goroutine per repository lists its tags,
    one goroutine per tag reads the manifest and extracts a creation time.
    All of them report to one owner loop ([getRepoInfo]) over an unbuffered
    channel and share a [sync.WaitGroup].

    The functions are translated as they are written.  What lives outside
    the repository (the network, [encoding/json], [time.Parse],
    [strings.EqualFold]) is collected in a [World] record; the pipeline is
    stated for every world and evaluated on small concrete ones. *)

From Stdlib Require Import ZArith Ascii String List Bool Lia Permutation Sorted.
From Stdlib Require Import DecimalString DecimalZ DecimalPos.
From stdpp Require Import gmap strings list fin_maps sorting.
Import ListNotations.

Local Open Scope string_scope.
Local Open Scope list_scope.
Local Open Scope Z_scope.

Set Warnings "-register-all".

(** ** Values decoded from JSON

    [json.Unmarshal] into [interface{}] yields nil, bool, float64, string,
    [[]interface{}] or [map[string]interface{}].  Numbers keep their literal
    text here, the program never reads one.  A decoded object is an
    association list; [jget] is the map index expression [m[key]], which
    yields nil ([JNull]) for an absent key. *)

Inductive json : Type :=
| JNull
| JBool (b : bool)
| JNum (literal : string)
| JStr (s : string)
| JArr (items : list json)
| JObj (fields : list (string * json)).

Definition jmap : Type := list (string * json).

Fixpoint jget (m : jmap) (key : string) : json :=
  match m with
  | [] => JNull
  | (k, v) :: rest => if String.eqb k key then v else jget rest key
  end.

(** [time.Time] as the number of nanoseconds since the zero time
    (January 1, year 1, 00:00:00 UTC); [Before] and [After] compare
    instants. *)
Definition Time : Type := Z.
Definition zero_time : Time := 0.
Definition Before (t u : Time) : bool := t <? u.
Definition After (t u : Time) : bool := u <? t.

(** ** The Fetcher: [getForMap] / [getAsMap] *)

(** The error a read of the body can leave in [err]. *)
Inductive read_error : Type :=
| EOF
| ReadFailure (msg : string).

(** What [httpClient.Get] followed by [ioutil.ReadAll(res.Body)] gives:
    either the transport fails, or there is a response with a status code,
    the bytes read and the read error, if any. *)
Record Response : Type := mkResponse {
  StatusCode : Z;
  Body : string;
  BodyErr : option read_error
}.

Inductive get_result : Type :=
| GetFailed (msg : string)
| GetResponse (res : Response).

(** The errors [getForMap] can return (and tasks can log). *)
Inductive error : Type :=
| TransportError (msg : string)
| BodyReadError (e : read_error)
| DecodeError (input : string).

Inductive fetched : Type :=
| Fetched (m : jmap)
| FetchError (e : error).

(** Everything outside the repository.  [Unmarshal s] is [json.Unmarshal]
    of the bytes [s] into a [map[string]interface{}]: [None] when it returns
    an error.  [ParseTime s] is [time.Parse(time.RFC3339Nano, s)]: [None]
    when it returns an error.  [EqualFold] is [strings.EqualFold], equality
    of strings under Unicode case folding. *)
Record World : Type := mkWorld {
  Get : string -> get_result;
  Unmarshal : string -> option jmap;
  ParseTime : string -> option Time;
  EqualFold : string -> string -> bool
}.

Definition is_eof (e : read_error) : bool :=
  match e with EOF => true | ReadFailure _ => false end.

(** The status test of [getForMap]: [res.StatusCode < 200 ||
    res.StatusCode >= 300]. *)
Definition non_2xx (code : Z) : bool := (code <? 200) || (300 <=? code).

Definition decode (W : World) (buf : string) : fetched :=
  match Unmarshal W buf with
  | Some m => Fetched m
  | None => FetchError (DecodeError buf)
  end.

Definition getForMap (W : World) (url : string) : fetched :=
  match Get W url with
  | GetFailed msg => FetchError (TransportError msg)
  | GetResponse res =>
      match BodyErr res with
      | Some e =>
          if negb (is_eof e) || non_2xx (StatusCode res)
          then FetchError (BodyReadError e)
          else decode W (Body res)
      | None => decode W (Body res)
      end
  end.

(** ** Registry aliases: [findRegistry] *)

Record Registry : Type := mkRegistry {
  Alias : string;
  Host : string;
  Port : Z;
  Schema : string;
  Addr : string
}.

Record Config : Type := mkConfig {
  Registries : list Registry
}.

(** The loop of [findRegistry] over [conf.Registries]; [Some reg] is the
    pair [(reg, true)], [None] is [(nil, false)]. *)
Fixpoint findRegistry_loop (W : World) (regs : list Registry) (alias : string)
  : option Registry :=
  match regs with
  | [] => None
  | reg :: rest =>
      if EqualFold W (Alias reg) alias then Some reg
      else findRegistry_loop W rest alias
  end.

Definition findRegistry (W : World) (conf : Config) (alias : string)
  : option Registry :=
  findRegistry_loop W (Registries conf) alias.

(** ** [sort.Slice]

    Slices of at most twelve elements are sorted by the library's insertion
    sort: for [i] from 1, element [i] is swapped leftwards while it is
    [less] than its left neighbour.  [sink x back] is that inner loop, with
    the already sorted prefix read from its right end.  Longer slices go
    through the library's quicksort, which returns a sorted rearrangement
    as well; the general statements below use these two properties only,
    and the slices of the examples have two elements. *)

Section SortSlice.
Context {A : Type} (less : A -> A -> bool).

Fixpoint sink (x : A) (back : list A) : list A :=
  match back with
  | [] => [x]
  | y :: rest => if less x y then y :: sink x rest else x :: back
  end.

Definition sort_slice (l : list A) : list A :=
  reverse (fold_left (fun back x => sink x back) l []).
End SortSlice.

(** ** Messages *)

Definition DataTypeRepoList : string := "rs".
Definition DataTypeTagList : string := "ts".
Definition DataTypeTagDetail : string := "td".

Definition JsonTime : Type := Time.

Record TagDetail : Type := mkTagDetail {
  Tag : string;
  Created : JsonTime
}.

(** What a [PayLoad] carries in its [Target interface{}]: the
    [[]interface{}] of repository or tag names, or the map [r] that
    [fetchDetailOfTag] fills with time values. *)
Inductive target : Type :=
| TargetList (items : list json)
| TargetMap (r : list (string * Time)).

Module PayLoad.
Record t : Type := mk {
  Type_ : string;
  Repo : string;
  Tag : string;
  Target : target
}.
End PayLoad.

(** ** The History Analyzer: the loop of [fetchDetailOfTag] *)

(** [created, _ := time.Parse(...)]: the error is dropped, and [time.Parse]
    returns the zero time together with an error. *)
Definition parse_created (W : World) (s : string) : Time :=
  match ParseTime W s with
  | Some t => t
  | None => zero_time
  end.

Inductive collected : Type :=
| Collected (h : list Time)
| Aborted (e : error)
| Panicked.

(** The [for _, item := range m["history"]] loop, [h] being the slice
    appended to.  A failed type assertion panics; a failed
    [json.Unmarshal] of the embedded document logs and returns. *)
Fixpoint collect (W : World) (items : list json) (h : list Time) : collected :=
  match items with
  | [] => Collected h
  | JObj i :: rest =>
      match jget i "v1Compatibility" with
      | JStr str =>
          match Unmarshal W str with
          | None => Aborted (DecodeError str)
          | Some msg =>
              match jget msg "created" with
              | JStr c => collect W rest (h ++ [parse_created W c])
              | _ => Panicked
              end
          end
      | _ => Panicked
      end
  | _ :: _ => Panicked
  end.

Inductive analysis : Type :=
| Latest (created : Time)
| Dropped (e : error)
| Crashed.

(** From the decoded manifest to [r["created"]]: collect, sort ascending,
    take [h[len(h) - 1]], which panics on an empty [h]. *)
Definition latestCreation (W : World) (m : jmap) : analysis :=
  match jget m "history" with
  | JArr items =>
      match collect W items [] with
      | Collected h =>
          match last (sort_slice Before h) with
          | Some t => Latest t
          | None => Crashed
          end
      | Aborted e => Dropped e
      | Panicked => Crashed
      end
  | _ => Crashed
  end.

(** ** The three tasks

    A world answers a URL in one way, so what a task fetches is known when
    the task is started.  After its fetch a task runs straight through a few
    operations on the shared objects (the log, the channel, the wait group),
    so a goroutine is the list of the operations it still has to perform.
    [defer wg.Done()] puts [Done] last on every return; when the body panics
    the deferred call runs first and the panic then takes the process down.
    [regman.go] has the same three tasks and the same owner loop, with the
    tags ["repos"], ["tags"] and ["tagDetail"] for the three message kinds. *)

Inductive action : Type :=
| Log (e : error)
| Send (p : PayLoad.t)
| Add (delta : Z)
| Done
| Panic.

Definition task : Type := list action.

Definition catalog_url (addr : string) : string := addr +:+ "/v2/_catalog".
Definition tags_url (addr repo : string) : string :=
  addr +:+ "/v2/" +:+ repo +:+ "/tags/list".
Definition manifest_url (addr repo tag : string) : string :=
  addr +:+ "/v2/" +:+ repo +:+ "/manifests/" +:+ tag.

Definition fetchRepos (W : World) (addr : string) : task :=
  match getForMap W (catalog_url addr) with
  | FetchError e => [Log e; Done]
  | Fetched m =>
      match jget m "repositories" with
      | JArr repos =>
          [Send (PayLoad.mk DataTypeRepoList "" "" (TargetList repos));
           Add (Z.of_nat (length repos));
           Done]
      | _ => [Done; Panic]
      end
  end.

Definition fetchTags (W : World) (addr repo : string) : task :=
  match getForMap W (tags_url addr repo) with
  | FetchError e => [Log e; Done]
  | Fetched m =>
      match jget m "tags" with
      | JArr tags =>
          [Send (PayLoad.mk DataTypeTagList repo "" (TargetList tags));
           Add (Z.of_nat (length tags));
           Done]
      | _ => [Done; Panic]
      end
  end.

Definition fetchDetailOfTag (W : World) (addr repo tag : string) : task :=
  match getForMap W (manifest_url addr repo tag) with
  | FetchError e => [Log e; Done]
  | Fetched m =>
      match latestCreation W m with
      | Latest t =>
          [Send (PayLoad.mk DataTypeTagDetail repo tag
                   (TargetMap [("created", t)]));
           Done]
      | Dropped e => [Log e; Done]
      | Crashed => [Done; Panic]
      end
  end.

(** ** The owner loop of [getRepoInfo] *)

Abbreviation ResultSet := (gmap string (list TagDetail)).

(** [name.(string)] on every element of the received list, in order;
    [None] when one of the assertions panics. *)
Fixpoint as_strings (items : list json) : option (list string) :=
  match items with
  | [] => Some []
  | JStr s :: rest =>
      match as_strings rest with
      | Some l => Some (s :: l)
      | None => None
      end
  | _ :: _ => None
  end.

Fixpoint rget (r : list (string * Time)) (key : string) : option Time :=
  match r with
  | [] => None
  | (k, v) :: rest => if String.eqb k key then Some v else rget rest key
  end.

(** [result[repo] = append(result[repo], d)], the sequence being created
    when the key is absent. *)
Definition append_detail (result : ResultSet) (repo : string) (d : TagDetail)
  : ResultSet :=
  <[repo := default [] (result !! repo) ++ [d]]> result.

(** One received payload: the goroutines it starts and the result set it
    leaves; [None] when the owner panics.  A payload of any other type falls
    through the [switch].  When a list holds something that is no string the
    loop of the owner has started the goroutines of the names before it by
    the time it panics; they are not kept here, the process being over. *)
Definition handle (W : World) (addr : string) (p : PayLoad.t) (result : ResultSet)
  : option (list task * ResultSet) :=
  if String.eqb (PayLoad.Type_ p) DataTypeRepoList then
    match PayLoad.Target p with
    | TargetList items =>
        match as_strings items with
        | Some repos => Some (map (fetchTags W addr) repos, result)
        | None => None
        end
    | TargetMap _ => None
    end
  else if String.eqb (PayLoad.Type_ p) DataTypeTagList then
    match PayLoad.Target p with
    | TargetList items =>
        match as_strings items with
        | Some tags =>
            Some (map (fetchDetailOfTag W addr (PayLoad.Repo p)) tags, result)
        | None => None
        end
    | TargetMap _ => None
    end
  else if String.eqb (PayLoad.Type_ p) DataTypeTagDetail then
    match PayLoad.Target p with
    | TargetMap r =>
        match rget r "created" with
        | Some t =>
            Some ([], append_detail result (PayLoad.Repo p)
                        (mkTagDetail (PayLoad.Tag p) t))
        | None => None
        end
    | TargetList _ => None
    end
  else Some ([], result).

(** The [done] branch: every sequence is sorted in place, later creation
    first. *)
Definition by_created_desc (a b : TagDetail) : bool :=
  After (Created a) (Created b).

Definition finalize (result : ResultSet) : ResultSet :=
  sort_slice by_created_desc <$> result.

(** ** Interleavings

    The state shared by the goroutines of one run.  [processed] records the
    payloads the owner has handled, in order; it is not a variable of the
    program. *)

Inductive owner : Type :=
| Running
| Returned (out : ResultSet).

Inductive watcher : Type :=
| Waiting
| Signalling
| Signalled.

Record state : Type := mkState {
  counter : Z;
  tasks : list task;
  result : ResultSet;
  loop : owner;
  watch : watcher;
  logged : list error;
  processed : list PayLoad.t;
  crashed : bool
}.

Definition init (W : World) (addr : string) : state :=
  {| counter := 1;
     tasks := [fetchRepos W addr];
     result := ∅;
     loop := Running;
     watch := Waiting;
     logged := [];
     processed := [];
     crashed := false |}.

(** What the scheduler picks next: the goroutine at index [i], the watcher
    (its [wg.Wait()] returns), or the meeting of the watcher's send with the
    owner's [<-done]. *)
Inductive choice : Type :=
| RunTask (i : nat)
| Watch
| Finish.

Definition crash (s : state) : state :=
  {| counter := counter s; tasks := tasks s; result := result s;
     loop := loop s; watch := watch s; logged := logged s;
     processed := processed s; crashed := true |}.

(** One operation of goroutine [i], the rest of which is [rest].  A send
    meets the owner's receive, and the owner handles the payload before it
    selects again.  [wg.Done()] panics when the counter would become
    negative. *)
Definition perform (W : World) (addr : string) (s : state) (i : nat)
    (a : action) (rest : task) : state :=
  let ts := <[i := rest]> (tasks s) in
  match a with
  | Log e =>
      {| counter := counter s; tasks := ts; result := result s;
         loop := loop s; watch := watch s; logged := logged s ++ [e];
         processed := processed s; crashed := false |}
  | Send p =>
      match handle W addr p (result s) with
      | Some (spawned, result') =>
          {| counter := counter s; tasks := ts ++ spawned; result := result';
             loop := loop s; watch := watch s; logged := logged s;
             processed := processed s ++ [p]; crashed := false |}
      | None => crash s
      end
  | Add delta =>
      {| counter := counter s + delta; tasks := ts; result := result s;
         loop := loop s; watch := watch s; logged := logged s;
         processed := processed s; crashed := false |}
  | Done =>
      if counter s - 1 <? 0 then crash s
      else
        {| counter := counter s - 1; tasks := ts; result := result s;
           loop := loop s; watch := watch s; logged := logged s;
           processed := processed s; crashed := false |}
  | Panic => crash s
  end.

Definition is_running (o : owner) : bool :=
  match o with Running => true | Returned _ => false end.

(** A step exists while the process is alive and [getRepoInfo] has not
    returned.  The watcher is released when it finds the counter at zero;
    the panic by which the library reports a [wg.Add] that comes after the
    release is not part of the steps, so that runs go on where the process
    would end. *)
Definition exec (W : World) (addr : string) (c : choice) (s : state)
  : option state :=
  if crashed s || negb (is_running (loop s)) then None
  else
    match c with
    | RunTask i =>
        match tasks s !! i with
        | Some (a :: rest) => Some (perform W addr s i a rest)
        | _ => None
        end
    | Watch =>
        match watch s with
        | Waiting =>
            if counter s =? 0 then
              Some {| counter := counter s; tasks := tasks s;
                      result := result s; loop := loop s;
                      watch := Signalling; logged := logged s;
                      processed := processed s; crashed := false |}
            else None
        | _ => None
        end
    | Finish =>
        match watch s with
        | Signalling =>
            Some {| counter := counter s; tasks := tasks s;
                    result := result s;
                    loop := Returned (finalize (result s));
                    watch := Signalled; logged := logged s;
                    processed := processed s; crashed := false |}
        | _ => None
        end
    end.

Fixpoint run (W : World) (addr : string) (cs : list choice) (s : state)
  : option state :=
  match cs with
  | [] => Some s
  | c :: rest =>
      match exec W addr c s with
      | Some s' => run W addr rest s'
      | None => None
      end
  end.

(** The states of the runs of [getRepoInfo] against the registry at
    [addr]. *)
Inductive reachable (W : World) (addr : string) : state -> Prop :=
| reach_init : reachable W addr (init W addr)
| reach_step s c s' :
    reachable W addr s -> exec W addr c s = Some s' -> reachable W addr s'.

Definition getRepoInfo_returns (W : World) (reg : Registry) (out : ResultSet)
  : Prop :=
  exists s, reachable W (Addr reg) s /\ loop s = Returned out.

(** ** Vocabulary of the statements *)

(** The names in a decoded list, and the lists the registry declares:
    the repositories of the catalog, the tags of a repository. *)
Fixpoint strings_in (items : list json) : list string :=
  match items with
  | [] => []
  | JStr s :: rest => s :: strings_in rest
  | _ :: rest => strings_in rest
  end.

Definition catalog_repos (W : World) (addr : string) : list string :=
  match getForMap W (catalog_url addr) with
  | Fetched m =>
      match jget m "repositories" with
      | JArr repos => strings_in repos
      | _ => []
      end
  | FetchError _ => []
  end.

Definition repo_tags (W : World) (addr repo : string) : list string :=
  match getForMap W (tags_url addr repo) with
  | Fetched m =>
      match jget m "tags" with
      | JArr tags => strings_in tags
      | _ => []
      end
  | FetchError _ => []
  end.

(** The embedded document of a history entry, and the [created] string of
    an embedded document, when the type assertions of the loop succeed. *)
Definition embedded (item : json) : option string :=
  match item with
  | JObj i =>
      match jget i "v1Compatibility" with
      | JStr str => Some str
      | _ => None
      end
  | _ => None
  end.

Definition created_field (W : World) (str : string) : option string :=
  match Unmarshal W str with
  | Some msg =>
      match jget msg "created" with
      | JStr c => Some c
      | _ => None
      end
  | None => None
  end.

(** An entry that goes through the loop body: its embedded document decodes
    and carries the string [c] under [created]. *)
Definition readable (W : World) (item : json) (c : string) : Prop :=
  exists str, embedded item = Some str /\ created_field W str = Some c.

(** An entry whose embedded document is the string [str], which
    [json.Unmarshal] rejects. *)
Definition undecodable (W : World) (item : json) (str : string) : Prop :=
  embedded item = Some str /\ Unmarshal W str = None.

(** The History Analyzer in the words of the specification: the timestamp
    of an entry is the parsed [created] of its embedded document, entries
    that fail to parse are skipped, the result is the maximum of the
    others, if any. *)
Definition specified_timestamp (W : World) (item : json) : option Time :=
  match embedded item with
  | Some str =>
      match created_field W str with
      | Some c => ParseTime W c
      | None => None
      end
  | None => None
  end.

Fixpoint specified_latest (W : World) (items : list json) : option Time :=
  match items with
  | [] => None
  | item :: rest =>
      match specified_timestamp W item, specified_latest W rest with
      | Some t, Some u => Some (Z.max t u)
      | Some t, None => Some t
      | None, r => r
      end
  end.

(** Orders on the elements of a slice, by an integer key. *)
Definition ascending_by {A : Type} (key : A -> Z) (a b : A) : Prop :=
  key a <= key b.
Definition descending_by {A : Type} (key : A -> Z) (a b : A) : Prop :=
  key b <= key a.


(** The goroutines a run can contain: what is left of the root task, of the
    tag task of a declared repository, or of the detail task of a declared
    tag of a declared repository. *)
Inductive task_origin (W : World) (addr : string) : task -> Prop :=
| origin_repos :
    task_origin W addr (fetchRepos W addr)
| origin_tags repo :
    repo ∈ catalog_repos W addr ->
    task_origin W addr (fetchTags W addr repo)
| origin_detail repo tag :
    repo ∈ catalog_repos W addr ->
    tag ∈ repo_tags W addr repo ->
    task_origin W addr (fetchDetailOfTag W addr repo tag).

Definition legit_task (W : World) (addr : string) (t : task) : Prop :=
  exists full done_, task_origin W addr full /\ full = done_ ++ t.

Definition legit_payload (W : World) (addr : string) (p : PayLoad.t) : Prop :=
  exists full, task_origin W addr full /\ Send p ∈ full.

Definition is_detail_for (repo : string) (p : PayLoad.t) : Prop :=
  PayLoad.Type_ p = DataTypeTagDetail /\ PayLoad.Repo p = repo.

(** What holds in every state of every run. *)
Record consistent (W : World) (addr : string) (s : state) : Prop := {
  tasks_legit : Forall (legit_task W addr) (tasks s);
  processed_legit : Forall (legit_payload W addr) (processed s);
  keys_processed :
    forall k, k ∈ dom (result s) <->
              exists p, p ∈ processed s /\ is_detail_for k p;
  no_empty_sequence : forall k, result s !! k <> Some [];
  returned_finalized :
    forall out, loop s = Returned out -> out = finalize (result s)
}.


(** ** Concrete worlds

    A world given by a table of pages, a list of JSON documents and a table
    of timestamps.  The text of a document is produced by [render], and
    [Unmarshal] accepts exactly the rendered documents of the list. *)

Definition dquote : string := String "034"%char EmptyString.
Definition backslash : string := String "092"%char EmptyString.

Fixpoint escape (s : string) : string :=
  match s with
  | EmptyString => EmptyString
  | String c rest =>
      if Ascii.eqb c "034"%char then backslash +:+ dquote +:+ escape rest
      else if Ascii.eqb c "092"%char then backslash +:+ backslash +:+ escape rest
      else String c (escape rest)
  end.

Fixpoint render (j : json) : string :=
  match j with
  | JNull => "null"
  | JBool true => "true"
  | JBool false => "false"
  | JNum literal => literal
  | JStr s => dquote +:+ escape s +:+ dquote
  | JArr items =>
      "[" +:+
      (fix elements (l : list json) : string :=
         match l with
         | [] => ""
         | [x] => render x
         | x :: rest => render x +:+ "," +:+ elements rest
         end) items +:+ "]"
  | JObj fields =>
      "{" +:+
      (fix members (l : list (string * json)) : string :=
         match l with
         | [] => ""
         | [(k, v)] => dquote +:+ escape k +:+ dquote +:+ ":" +:+ render v
         | (k, v) :: rest =>
             dquote +:+ escape k +:+ dquote +:+ ":" +:+ render v +:+ ","
             +:+ members rest
         end) fields +:+ "}"
  end.

Fixpoint lookup_page (pages : list (string * get_result)) (url : string)
  : get_result :=
  match pages with
  | [] => GetFailed "no such host"
  | (u, r) :: rest => if String.eqb u url then r else lookup_page rest url
  end.

Fixpoint lookup_doc (docs : list jmap) (text : string) : option jmap :=
  match docs with
  | [] => None
  | d :: rest =>
      if String.eqb (render (JObj d)) text then Some d else lookup_doc rest text
  end.

Fixpoint lookup_time (times : list (string * Time)) (s : string) : option Time :=
  match times with
  | [] => None
  | (k, t) :: rest => if String.eqb k s then Some t else lookup_time rest s
  end.

(** Case folding on ASCII letters, byte by byte. *)
Definition lower (c : ascii) : N :=
  let n := Ascii.N_of_ascii c in
  if ((65 <=? n) && (n <=? 90))%N then (n + 32)%N else n.

Fixpoint ascii_fold (s t : string) : bool :=
  match s, t with
  | EmptyString, EmptyString => true
  | String a s', String b t' => (lower a =? lower b)%N && ascii_fold s' t'
  | _, _ => false
  end.

Definition world_of (pages : list (string * get_result)) (docs : list jmap)
    (times : list (string * Time)) : World :=
  {| Get := lookup_page pages;
     Unmarshal := lookup_doc docs;
     ParseTime := lookup_time times;
     EqualFold := ascii_fold |}.

Definition ok (doc : jmap) : get_result :=
  GetResponse (mkResponse 200 (render (JObj doc)) None).

Definition manifest (layers : list string) : jmap :=
  [("history", JArr (map (fun s => JObj [("v1Compatibility", JStr s)]) layers))].

Definition layer (created : string) : jmap := [("created", JStr created)].
Definition layer_text (created : string) : string := render (JObj (layer created)).

Definition jan1 : string := "2023-01-01T00:00:00Z".
Definition jan2 : string := "2023-01-02T00:00:00Z".
Definition jan1_time : Time := 63808128000000000000.
Definition jan2_time : Time := 63808214400000000000.

Definition doc_catalog : jmap := [("repositories", JArr [JStr "a"; JStr "b"])].
Definition doc_catalog_a : jmap := [("repositories", JArr [JStr "a"])].
Definition doc_tags_a : jmap := [("tags", JArr [JStr "v1"; JStr "v2"])].
Definition doc_tags_b : jmap := [("tags", JArr [])].
Definition doc_v1 : jmap := manifest [layer_text jan1].
Definition doc_v2 : jmap := manifest [layer_text jan1; layer_text jan2].
Definition doc_broken : jmap := manifest [layer_text jan2; "not json"].
Definition doc_all_broken : jmap := manifest ["not json"].
Definition doc_no_history : jmap := manifest [].
Definition doc_undated : jmap := manifest [layer_text "yesterday"].

(** Four registries.  [reg] is the example of the specification: two
    repositories, [a] with tags [v1] and [v2], [b] with no tag.  On [flaky]
    the tag list of [a] cannot be fetched, and [b] has the tags [v1] and
    [v2].  On [ties] both tags of [a] have the same creation time.  [odd]
    serves manifests that are damaged in one way or another, and an empty
    404 page. *)
Definition demo_pages : list (string * get_result) :=
  [ ("http://reg/v2/_catalog", ok doc_catalog);
    ("http://reg/v2/a/tags/list", ok doc_tags_a);
    ("http://reg/v2/b/tags/list", ok doc_tags_b);
    ("http://reg/v2/a/manifests/v1", ok doc_v1);
    ("http://reg/v2/a/manifests/v2", ok doc_v2);
    ("http://flaky/v2/_catalog", ok doc_catalog);
    ("http://flaky/v2/a/tags/list", GetFailed "connection refused");
    ("http://flaky/v2/b/tags/list", ok doc_tags_a);
    ("http://flaky/v2/b/manifests/v1", ok doc_v1);
    ("http://flaky/v2/b/manifests/v2", ok doc_v2);
    ("http://ties/v2/_catalog", ok doc_catalog_a);
    ("http://ties/v2/a/tags/list", ok doc_tags_a);
    ("http://ties/v2/a/manifests/v1", ok doc_v1);
    ("http://ties/v2/a/manifests/v2", ok doc_v1);
    ("http://odd/v2/a/manifests/broken", ok doc_broken);
    ("http://odd/v2/a/manifests/undated", ok doc_undated);
    ("http://odd/v2/a/manifests/allbroken", ok doc_all_broken);
    ("http://odd/v2/a/manifests/nohistory", ok doc_no_history);
    ("http://odd/v2/missing", GetResponse (mkResponse 404 "" None));
    ("http://odd/v2/empty", GetResponse (mkResponse 200 "" None)) ].

Definition demo_docs : list jmap :=
  [ doc_catalog; doc_catalog_a; doc_tags_a; doc_tags_b; doc_v1; doc_v2;
    doc_broken; doc_all_broken; doc_no_history; doc_undated;
    layer jan1; layer jan2; layer "yesterday" ].

Definition demo_times : list (string * Time) :=
  [ (jan1, jan1_time); (jan2, jan2_time) ].

Definition demo : World := world_of demo_pages demo_docs demo_times.

Definition demo_registries : Config :=
  {| Registries :=
       [ mkRegistry "local" "127.0.0.1" 5001 "http" "http://127.0.0.1:5001";
         mkRegistry "reg01" "reg01.example.org" 443 "https"
                    "https://reg01.example.org:443";
         mkRegistry "reg01" "reg01.example.org" 55001 "http"
                    "http://reg01.example.org:55001" ] |}.

(** A complete run against [reg]: the catalog, then the tag lists of [a] and
    [b], then the two manifests, each task running to its end. *)
Definition schedule_reg : list choice :=
  [ RunTask 0; RunTask 0; RunTask 0;
    RunTask 1; RunTask 1; RunTask 1;
    RunTask 2; RunTask 2; RunTask 2;
    RunTask 3; RunTask 3;
    RunTask 4; RunTask 4;
    Watch; Finish ]%nat.


(** A run against [flaky]: the owner receives the catalog and starts the two
    tag tasks; the task of [a] fails, logs and retires before [fetchRepos]
    reaches its [wg.Add]. *)
Definition schedule_race : list choice :=
  [ RunTask 0; RunTask 1; RunTask 1 ]%nat.

(** A run against [flaky] in which every task adds its units before any of
    its children retires. *)
Definition schedule_flaky : list choice :=
  [ RunTask 0; RunTask 0; RunTask 0;
    RunTask 1; RunTask 1;
    RunTask 2; RunTask 2; RunTask 2;
    RunTask 3; RunTask 3;
    RunTask 4; RunTask 4;
    Watch; Finish ]%nat.

(** A history entry whose embedded document has the given [created]. *)
Definition entry (created : string) : json :=
  JObj [("v1Compatibility", JStr (layer_text created))].

(** The registry [main] builds for an argument that is no configured alias:
    [&Registry{Addr: connectString}]. *)
Definition raw_registry (addr : string) : Registry :=
  mkRegistry "" "" 0 "" addr.

Definition reg_out : ResultSet :=
  {[ "a" := [mkTagDetail "v2" jan2_time; mkTagDetail "v1" jan1_time] ]}.

Definition flaky_out : ResultSet :=
  {[ "b" := [mkTagDetail "v2" jan2_time; mkTagDetail "v1" jan1_time] ]}.



(** A task that logs [e] and does nothing else but retire: run from a
    state of a live process whose counter is positive, its two operations
    add [e] to the log, hand no message to the owner, leave the result set
    alone, lower the counter by one and leave the process alive. *)
Definition logs_and_retires (W : World) (addr : string) (t : task) (e : error)
  : Prop :=
  forall s i,
    crashed s = false ->
    loop s = Running ->
    tasks s !! i = Some t ->
    0 < counter s ->
    exists s',
      run W addr [RunTask i; RunTask i] s = Some s' /\
      logged s' = logged s ++ [e] /\
      processed s' = processed s /\
      result s' = result s /\
      counter s' = counter s - 1 /\
      tasks s' !! i = Some [] /\
      crashed s' = false /\
      loop s' = Running.

(** A registry whose only tag has a manifest none of whose entries
    decodes, and the run against it up to the start of the detail task. *)
Definition doc_tags_allbroken : jmap := [("tags", JArr [JStr "allbroken"])].

Definition broken_pages : list (string * get_result) :=
  [ ("http://broken/v2/_catalog", ok doc_catalog_a);
    ("http://broken/v2/a/tags/list", ok doc_tags_allbroken);
    ("http://broken/v2/a/manifests/allbroken", ok doc_all_broken) ].

Definition broken : World :=
  world_of broken_pages [doc_catalog_a; doc_tags_allbroken; doc_all_broken] [].

Definition broken_listed : state :=
  default (init broken "http://broken")
          (run broken "http://broken"
               [RunTask 0; RunTask 0; RunTask 0; RunTask 1; RunTask 1; RunTask 1]%nat
               (init broken "http://broken")).

(** A state with one goroutine, the detail task of the manifest [broken]
    of [odd], and one unit outstanding. *)
Definition broken_detail_state : state :=
  {| counter := 1;
     tasks := [fetchDetailOfTag demo "http://odd" "a" "broken"];
     result := ∅; loop := Running; watch := Waiting;
     logged := []; processed := []; crashed := false |}.

(** ** Accounting of the wait group

    What a goroutine still owes to the counter: the unit its [wg.Done()]
    will give back, less the units its [wg.Add] will still take, plus one
    unit for every goroutine the owner will start when it receives a list
    the goroutine still has to send. *)

Definition spawn_count (p : PayLoad.t) : Z :=
  if String.eqb (PayLoad.Type_ p) DataTypeRepoList
     || String.eqb (PayLoad.Type_ p) DataTypeTagList
  then
    match PayLoad.Target p with
    | TargetList items => Z.of_nat (length items)
    | TargetMap _ => 0
    end
  else 0.

Fixpoint balance (t : task) : Z :=
  match t with
  | [] => 0
  | Log _ :: rest => balance rest
  | Send p :: rest => spawn_count p + balance rest
  | Add delta :: rest => balance rest - delta
  | Done :: rest => 1 + balance rest
  | Panic :: rest => balance rest
  end.

Fixpoint outstanding (ts : list task) : Z :=
  match ts with
  | [] => 0
  | t :: rest => balance t + outstanding rest
  end.

(** A goroutine between its send and its [wg.Add]. *)
Definition about_to_add (t : task) : Prop :=
  exists delta rest, t = Add delta :: rest.

(** What is left of a goroutine of the run. *)
Inductive shape : task -> Prop :=
| shape_finished : shape []
| shape_panic : shape [Panic]
| shape_done : shape [Done]
| shape_done_panic : shape [Done; Panic]
| shape_log e : shape [Log e; Done]
| shape_add delta : 0 <= delta -> shape [Add delta; Done]
| shape_send_list p :
    0 <= spawn_count p -> shape [Send p; Add (spawn_count p); Done]
| shape_send_detail p : spawn_count p = 0 -> shape [Send p; Done].

(** A goroutine that has not yet called its [wg.Done()], and their
    number. *)
Definition unretired (t : task) : bool :=
  existsb (fun a => match a with Done => true | _ => false end) t.

Fixpoint live_units (ts : list task) : Z :=
  match ts with
  | [] => 0
  | t :: rest => (if unretired t then 1 else 0) + live_units rest
  end.

(** The state of the run against [flaky] in which the task of [a] has
    retired before [fetchRepos] has added its units. *)
Definition flaky_raced : state :=
  default (init demo "http://flaky")
          (run demo "http://flaky" schedule_race (init demo "http://flaky")).

(** The state at the end of the complete run against [reg]. *)
Definition reg_finished : state :=
  default (init demo "http://reg")
          (run demo "http://reg" schedule_reg (init demo "http://reg")).

(** The state of the run against [reg] just before the watcher is
    released. *)
Definition reg_drained : state :=
  default (init demo "http://reg")
          (run demo "http://reg" (take 13 schedule_reg) (init demo "http://reg")).

(** ** The goroutines started and the details received *)

(** The goroutines the owner starts for a payload, whatever the result set
    is. *)
Definition children (W : World) (addr : string) (p : PayLoad.t) : list task :=
  match handle W addr p ∅ with
  | Some (spawned, _) => spawned
  | None => []
  end.

(** The goroutines the loops of the owner start for a payload whose list
    holds names only: one tag task per name of a list of repositories, one
    detail task per name of a list of tags, in the order of the list. *)
Definition started_for (W : World) (addr : string) (p : PayLoad.t) : list task :=
  match PayLoad.Target p with
  | TargetList items =>
      if String.eqb (PayLoad.Type_ p) DataTypeRepoList
      then fetchTags W addr <$> strings_in items
      else if String.eqb (PayLoad.Type_ p) DataTypeTagList
      then fetchDetailOfTag W addr (PayLoad.Repo p) <$> strings_in items
      else []
  | TargetMap _ => []
  end.

(** All goroutines of a run in the order of their start, as they were when
    they started: the root task, then the children of the payloads handled
    so far. *)
Definition spawn_log (W : World) (addr : string) (ps : list PayLoad.t)
  : list task :=
  fetchRepos W addr :: flat_map (children W addr) ps.

(** The element the owner appends under [repo] for a payload. *)
Definition detail_of (repo : string) (p : PayLoad.t) : option TagDetail :=
  if String.eqb (PayLoad.Type_ p) DataTypeTagDetail
     && String.eqb (PayLoad.Repo p) repo
  then
    match PayLoad.Target p with
    | TargetMap r =>
        match rget r "created" with
        | Some t => Some (mkTagDetail (PayLoad.Tag p) t)
        | None => None
        end
    | TargetList _ => None
    end
  else None.

(** A goroutine of the run, with what it has already done: its sends have
    been handled by the owner. *)
Definition progressed (handled : list PayLoad.t) (whole t : task) : Prop :=
  exists done_, whole = done_ ++ t /\ forall p, Send p ∈ done_ -> p ∈ handled.

Record traced (W : World) (addr : string) (s : state) : Prop := {
  tasks_traced :
    Forall2 (progressed (processed s)) (spawn_log W addr (processed s)) (tasks s);
  processed_handled :
    Forall (fun p => is_Some (handle W addr p ∅)) (processed s);
  result_received :
    forall k, default [] (result s !! k) = omap (detail_of k) (processed s);
  watcher_waits : loop s = Running -> watch s <> Signalled
}.


(** ** A bound on the length of a run

    The operations a goroutine still has to perform, those of the
    goroutines its sends will start included, to the given depth of
    starting. *)

Fixpoint cost (W : World) (addr : string) (depth : nat) : task -> nat :=
  match depth with
  | O => fun t => length t
  | S depth' =>
      fix ops (t : task) : nat :=
        match t with
        | [] => O
        | Send p :: rest =>
            S (sum_list_with (cost W addr depth') (children W addr p)
               + ops rest)%nat
        | _ :: rest => S (ops rest)
        end
  end.

Definition watcher_steps (w : watcher) : nat :=
  match w with Waiting => 2 | Signalling => 1 | Signalled => 0 end%nat.

(** The steps a state can still take: none once the process has crashed. *)
Definition steps_left (W : World) (addr : string) (s : state) : nat :=
  if crashed s then O
  else S (sum_list_with (cost W addr 2) (tasks s) + watcher_steps (watch s))%nat.

(** ** Start-up: configuration and target address

    [list_docker_registry_images.go] loads its configuration in [init], from
    a file it creates when there is none; [regman.go] only reads the file.
    The file system and the decoding of the configuration are outside the
    repository: a [Platform] gives the home directory, the paths that can be
    written and what [json.Unmarshal(b, &localConf)] does.  A failed
    decoding may leave a value in [localConf]; a decoding that succeeds may
    leave [localConf] nil (the file holds [null]) or with a nil entry, and
    the address loop of [loadConfig] then panics.  Nil entries in what a
    failed decoding leaves are not represented. *)

Inductive decoding : Type :=
| Decoded (conf : Config)
| Unusable
| Undecoded (leftover : option Config).

Record Platform : Type := mkPlatform {
  Home : string;
  Writable : string -> bool;
  DecodeConfig : string -> decoding
}.

Definition tab : string := String "009"%char EmptyString.
Definition newline : string := String "010"%char EmptyString.
Definition quoted (s : string) : string := dquote +:+ s +:+ dquote.

Definition defaultConfig : string :=
  String.concat newline
  [ "{";
    "  " +:+ quoted "registries" +:+ ": [";
    tab +:+ "{";
    "      " +:+ quoted "alias" +:+ ": " +:+ quoted "local" +:+ ",";
    "      " +:+ quoted "host" +:+ ": " +:+ quoted "127.0.0.1" +:+ ",";
    "      " +:+ quoted "port" +:+ ": 5001,";
    "      " +:+ quoted "schema" +:+ ": " +:+ quoted "http";
    "    },";
    "    {";
    "      " +:+ quoted "alias" +:+ ": " +:+ quoted "reg01" +:+ ",";
    "      " +:+ quoted "host" +:+ ": " +:+ quoted "reg01.example.org" +:+ ",";
    "      " +:+ quoted "port" +:+ ": 443,";
    "      " +:+ quoted "schema" +:+ ": " +:+ quoted "https";
    "    },";
    "    {";
    "      " +:+ quoted "alias" +:+ ": " +:+ quoted "reg01" +:+ ",";
    "      " +:+ quoted "host" +:+ ": " +:+ quoted "reg01.example.org" +:+ ",";
    "      " +:+ quoted "port" +:+ ": 55001,";
    "      " +:+ quoted "schema" +:+ ": " +:+ quoted "http";
    "    }";
    "  ]";
    "}" ].

(** [%v] of an [int]: its decimal digits, with a minus sign when
    negative. *)
Definition format_int (n : Z) : string := NilZero.string_of_int (Z.to_int n).

(** The loop at the end of [loadConfig]:
    [reg.Addr = fmt.Sprintf("%v://%v:%v", reg.Schema, reg.Host, reg.Port)]. *)
Definition with_addr (reg : Registry) : Registry :=
  {| Alias := Alias reg; Host := Host reg; Port := Port reg;
     Schema := Schema reg;
     Addr := Schema reg +:+ "://" +:+ Host reg +:+ ":" +:+ format_int (Port reg) |}.

Definition fill_addrs (conf : Config) : Config :=
  {| Registries := map with_addr (Registries conf) |}.

Definition configFilePath (P : Platform) : string :=
  Home P +:+ "/.docker_registry_config.json".

(** [ioutil.WriteFile(path, defaultConfig, 0644)]. *)
Definition initConfig (P : Platform) (path : string) (disk : gmap string string)
  : gmap string string :=
  if Writable P path then <[path := defaultConfig]> disk else disk.

(** How [loadConfig] ends: [localConf] is set, an error is returned, or the
    address loop panics. *)
Inductive loading : Type :=
| Loaded (conf : Config)
| LoadError
| LoadPanic.

(** [loadConfig] of [list_docker_registry_images.go]: the disk it leaves
    and how it ends.  The error of [initConfig] is overwritten by the read
    that follows. *)
Definition loadConfig (P : Platform) (path : string) (disk : gmap string string)
  : gmap string string * loading :=
  let disk' :=
    match disk !! path with
    | None => initConfig P path disk
    | Some _ => disk
    end in
  match disk' !! path with
  | None => (disk', LoadError)
  | Some b =>
      match DecodeConfig P b with
      | Decoded conf => (disk', Loaded (fill_addrs conf))
      | Unusable => (disk', LoadPanic)
      | Undecoded _ => (disk', LoadError)
      end
  end.

(** What [loadConfig] makes of the bytes of the file. *)
Definition loaded (P : Platform) (b : string) : loading :=
  match DecodeConfig P b with
  | Decoded conf => Loaded (fill_addrs conf)
  | Unusable => LoadPanic
  | Undecoded _ => LoadError
  end.

(** [strings.HasPrefix]. *)
Fixpoint HasPrefix (s prefix : string) {struct prefix} : bool :=
  match prefix with
  | EmptyString => true
  | String c prefix' =>
      match s with
      | EmptyString => false
      | String d s' => Ascii.eqb c d && HasPrefix s' prefix'
      end
  end.

(** The registry [main] queries for its argument: the configured registry
    of that alias, or the argument taken as an address. *)
Definition resolve (W : World) (conf : Config) (connectString : string)
  : Registry :=
  match findRegistry W conf connectString with
  | Some reg => reg
  | None =>
      raw_registry (if HasPrefix connectString "http" then connectString
                    else "http://" +:+ connectString)
  end.

(** How a start ends: the process exits in [init] or [main] ([log.Fatal]),
    it panics, or [getRepoInfo] is called. *)
Inductive launch : Type :=
| Exits
| Panics
| Queries (reg : Registry).

(** [init] and [main] of [list_docker_registry_images.go], [args] being
    [os.Args]: [init] ends the process on an error of [loadConfig]. *)
Definition start (P : Platform) (W : World) (disk : gmap string string)
    (args : list string) : gmap string string * launch :=
  match loadConfig P (configFilePath P) disk with
  | (disk', LoadError) => (disk', Exits)
  | (disk', LoadPanic) => (disk', Panics)
  | (disk', Loaded conf) =>
      match args with
      | [] => (disk', Panics)
      | [_] => (disk', Exits)
      | _ :: connectString :: _ => (disk', Queries (resolve W conf connectString))
      end
  end.

Definition regman_config_path (P : Platform) : string :=
  Home P +:+ "/.regman/config.json".

(** [loadConfig] of [regman.go]: the value of [localConf] afterwards ([None]
    inside is nil), or [None] when the address loop panics.  A failed
    [os.Open] returns at once. *)
Definition regman_loadConfig (P : Platform) (disk : gmap string string)
  : option (option Config) :=
  match disk !! regman_config_path P with
  | None => Some None
  | Some b =>
      match DecodeConfig P b with
      | Decoded conf => Some (Some (fill_addrs conf))
      | Unusable => None
      | Undecoded leftover => Some leftover
      end
  end.

(** What [flag.Parse()] does with the first argument after the program
    name, no flag being defined: an argument of at least two characters
    that starts with [-] and is not [--] is taken for a flag, and the flag
    package ends the process (bad syntax, undefined flag, or the help for
    [-h] and [-help]).  Anything else stops the parsing. *)
Definition is_flag (arg : string) : bool :=
  match arg with
  | String c (String d rest) =>
      Ascii.eqb c "-"%char
      && negb (Ascii.eqb d "-"%char && String.eqb rest EmptyString)
  | _ => false
  end.

(** [init] and [main] of [regman.go], [args] being [os.Args]: [init] parses
    the flags, logs a failed load and goes on; [main] panics without an
    argument, and [findRegistry] dereferences [localConf]. *)
Definition regman_start (P : Platform) (W : World) (disk : gmap string string)
    (args : list string) : launch :=
  match args with
  | [] => Panics
  | _ :: rest =>
      if match rest with arg :: _ => is_flag arg | [] => false end then Exits
      else
        match regman_loadConfig P disk with
        | None => Panics
        | Some localConf =>
            match rest, localConf with
            | [], _ => Panics
            | _ :: _, None => Panics
            | arg :: _, Some conf => Queries (resolve W conf arg)
            end
        end
  end.

(** A platform for the examples: home [/root], everything writable, and a
    decoder that knows the default configuration. *)
Definition default_registries : Config :=
  {| Registries :=
       [ mkRegistry "local" "127.0.0.1" 5001 "http" "";
         mkRegistry "reg01" "reg01.example.org" 443 "https" "";
         mkRegistry "reg01" "reg01.example.org" 55001 "http" "" ] |}.

Definition demo_platform : Platform :=
  {| Home := "/root";
     Writable := fun _ => true;
     DecodeConfig := fun b =>
       if String.eqb b defaultConfig then Decoded default_registries
       else Undecoded None |}.

(** A second world, with two damaged registries: on [bad] the only tag of
    the only repository has a manifest with an empty history; the catalog
    of [worse] lists a null among its names. *)
Definition doc_catalog_null : jmap :=
  [("repositories", JArr [JStr "a"; JNull])].
Definition doc_tags_empty : jmap := [("tags", JArr [JStr "empty"])].

Definition bad_pages : list (string * get_result) :=
  [ ("http://bad/v2/_catalog", ok doc_catalog_a);
    ("http://bad/v2/a/tags/list", ok doc_tags_empty);
    ("http://bad/v2/a/manifests/empty", ok doc_no_history);
    ("http://worse/v2/_catalog", ok doc_catalog_null) ].

Definition bad : World :=
  world_of bad_pages
           [doc_catalog_a; doc_tags_empty; doc_no_history; doc_catalog_null] [].

(** The run against [bad] up to the start of the detail task. *)
Definition bad_listed : state :=
  default (init bad "http://bad")
          (run bad "http://bad"
               [RunTask 0; RunTask 0; RunTask 0; RunTask 1; RunTask 1; RunTask 1]%nat
               (init bad "http://bad")).

(** The run against [reg] once the root task has retired. *)
Definition reg_listed : state :=
  default (init demo "http://reg")
          (run demo "http://reg" (take 3 schedule_reg) (init demo "http://reg")).

(** * Properties *)

(** ** Registry aliases *)

Section FindRegistry.
Variable W : World.

(** C8. The lookup compares aliases with [strings.EqualFold] and returns
    the first entry of the configuration whose alias matches the query: no
    entry before the returned one matches, whatever follows it; and it
    reports failure exactly when no entry matches. *)
Theorem findRegistry_first_match (conf : Config) (alias : string) :
  match findRegistry W conf alias with
  | Some reg =>
      exists before after,
        Registries conf = before ++ reg :: after /\
        EqualFold W (Alias reg) alias = true /\
        forall r, r ∈ before -> EqualFold W (Alias r) alias = false
  | None =>
      forall r, r ∈ Registries conf -> EqualFold W (Alias r) alias = false
  end.
Proof.
  unfold findRegistry.
  induction (Registries conf) as [|reg rest IH]; simpl.
  - intros r Hr. inversion Hr.
  - destruct (EqualFold W (Alias reg) alias) eqn:Hfold.
    + exists [], rest. repeat split; [done|]. intros r Hr. inversion Hr.
    + destruct (findRegistry_loop W rest alias) as [found|].
      * destruct IH as (before & after & -> & Hmatch & Hnone).
        exists (reg :: before), after. repeat split; [done|].
        intros r [->|Hr]%elem_of_cons; auto.
      * intros r [->|Hr]%elem_of_cons; auto.
Qed.
End FindRegistry.

(** The default configuration has two entries under [reg01]; a query in
    another case finds the first of them. *)
Example findRegistry_default_config :
  findRegistry demo demo_registries "REG01"
  = Some (mkRegistry "reg01" "reg01.example.org" 443 "https"
                     "https://reg01.example.org:443").
Proof. reflexivity. Qed.

(** ** The Fetcher *)

Section Fetcher.
Variable W : World.

(** C6, as the code has it.  When the body is read without error it is
    decoded whatever the status code is, and the outcome is the outcome of
    the decoding alone: with a body that does not decode, the error is the
    decode error of that body under every status code. *)
Theorem getForMap_ignores_status (url : string) (res : Response) :
  Get W url = GetResponse res ->
  BodyErr res = None ->
  getForMap W url = decode W (Body res) /\
  (Unmarshal W (Body res) = None ->
   getForMap W url = FetchError (DecodeError (Body res))).
Proof.
  intros Hget Hread. unfold getForMap. rewrite Hget, Hread.
  split; [done|]. unfold decode. by intros ->.
Qed.

(** The status code is consulted only after a failed read: [io.EOF] on a
    2xx response is forgiven, every other failed read is returned. *)
Lemma getForMap_failed_read url res e :
  Get W url = GetResponse res ->
  BodyErr res = Some e ->
  getForMap W url =
    if negb (is_eof e) || non_2xx (StatusCode res)
    then FetchError (BodyReadError e)
    else decode W (Body res).
Proof. intros Hget Hread. unfold getForMap. by rewrite Hget, Hread. Qed.
End Fetcher.

Lemma getForMap_ignores_status_witness :
  getForMap demo "http://odd/v2/missing" = decode demo "" /\
  (Unmarshal demo "" = None ->
   getForMap demo "http://odd/v2/missing" = FetchError (DecodeError "")).
Proof.
  apply (getForMap_ignores_status demo "http://odd/v2/missing"
           (mkResponse 404 "" None)); reflexivity.
Defined.

(** C6, as stated, fails: a 404 response with an empty body gives the
    decode error that a 200 response with an empty body gives, so a status
    outside 2xx with an undecodable body is not told apart from a decoding
    failure. *)
Lemma status_error_not_distinct :
  ~ (forall (W : World) url res,
       Get W url = GetResponse res ->
       non_2xx (StatusCode res) = true ->
       Unmarshal W (Body res) = None ->
       forall input, getForMap W url <> FetchError (DecodeError input)).
Proof.
  intros claim.
  apply (claim demo "http://odd/v2/missing" (mkResponse 404 "" None)
           eq_refl eq_refl eq_refl "").
  reflexivity.
Qed.

Example empty_body_same_error_under_200_and_404 :
  getForMap demo "http://odd/v2/missing" = getForMap demo "http://odd/v2/empty".
Proof. reflexivity. Qed.

(** ** [sort.Slice] sorts *)

Section SortFacts.
Context {A : Type} (key : A -> Z) (less : A -> A -> bool).
Hypothesis less_key : forall a b, less a b = (key a <? key b).

Lemma sink_Permutation x back : sink less x back ≡ₚ x :: back.
Proof.
  induction back as [|y rest IH]; simpl; [done|].
  destruct (less x y); [|done].
  rewrite IH. apply Permutation_swap.
Qed.

Lemma sink_descending x back :
  StronglySorted (descending_by key) back -> StronglySorted (descending_by key) (sink less x back).
Proof.
  induction back as [|y rest IH]; simpl; intros Hsorted.
  - repeat constructor.
  - apply StronglySorted_cons in Hsorted as [Hy Hrest].
    destruct (less x y) eqn:Hless; rewrite less_key in Hless.
    + apply StronglySorted_cons. split; [|auto].
      rewrite sink_Permutation. constructor; [|done].
      unfold descending_by. lia.
    + apply StronglySorted_cons. split; [|by apply StronglySorted_cons].
      constructor; [unfold descending_by; lia|].
      eapply Forall_impl; [exact Hy|].
      unfold descending_by. intros z Hz. lia.
Qed.

Lemma sinks_Permutation l back :
  fold_left (fun back x => sink less x back) l back ≡ₚ l ++ back.
Proof.
  revert back. induction l as [|x l IH]; intros back; simpl; [done|].
  rewrite IH, sink_Permutation. by rewrite Permutation_middle.
Qed.

Lemma sinks_descending l back :
  StronglySorted (descending_by key) back ->
  StronglySorted (descending_by key) (fold_left (fun back x => sink less x back) l back).
Proof.
  revert back. induction l as [|x l IH]; intros back Hback; simpl; [done|].
  by apply IH, sink_descending.
Qed.

Lemma reverse_descending l :
  StronglySorted (descending_by key) l -> StronglySorted (ascending_by key) (reverse l).
Proof.
  induction l as [|x l IH]; intros Hsorted; [constructor|].
  apply StronglySorted_cons in Hsorted as [Hx Hl].
  rewrite reverse_cons. apply StronglySorted_app. repeat split.
  - intros a b Ha ->%list_elem_of_singleton.
    rewrite elem_of_reverse in Ha.
    rewrite Forall_forall in Hx. apply (Hx a Ha).
  - auto.
  - repeat constructor.
Qed.

Lemma sort_slice_Permutation l : sort_slice less l ≡ₚ l.
Proof.
  unfold sort_slice.
  by rewrite reverse_Permutation, sinks_Permutation, app_nil_r.
Qed.

Lemma sort_slice_ascending l :
  StronglySorted (ascending_by key) (sort_slice less l).
Proof. apply reverse_descending, sinks_descending. constructor. Qed.

(** The last element of the sorted slice is a greatest element. *)
Lemma sort_slice_last l t :
  last (sort_slice less l) = Some t ->
  t ∈ l /\ forall x, x ∈ l -> key x <= key t.
Proof.
  intros [front Hfront]%last_Some.
  pose proof (sort_slice_Permutation l) as Hperm.
  pose proof (sort_slice_ascending l) as Hsorted.
  rewrite Hfront in Hperm, Hsorted.
  apply StronglySorted_app in Hsorted as (Hle & _ & _).
  split.
  - rewrite <- Hperm. set_solver.
  - intros x Hx. rewrite <- Hperm in Hx.
    apply elem_of_app in Hx as [Hx| ->%list_elem_of_singleton]; [|lia].
    apply (Hle x t Hx). set_solver.
Qed.

Lemma sort_slice_last_is_Some l : l <> [] -> is_Some (last (sort_slice less l)).
Proof.
  intros Hne. apply last_is_Some. intros Hnil.
  pose proof (sort_slice_Permutation l) as Hperm.
  rewrite Hnil in Hperm. by apply Permutation_nil in Hperm.
Qed.
End SortFacts.

(** ** The History Analyzer *)

Section HistoryAnalyzer.
Variable W : World.


Lemma collect_step_readable item c rest h :
  readable W item c ->
  collect W (item :: rest) h = collect W rest (h ++ [parse_created W c]).
Proof.
  intros (str & Hemb & Hfield). unfold embedded in Hemb.
  destruct item as [| | | |?|i]; try discriminate. simpl.
  destruct (jget i "v1Compatibility") as [| | |s| |]; try discriminate.
  injection Hemb as ->. unfold created_field in Hfield.
  destruct (Unmarshal W str) as [msg|]; [|discriminate].
  destruct (jget msg "created") as [| | |s| |]; try discriminate.
  by injection Hfield as ->.
Qed.

Lemma collect_step_undecodable item str rest h :
  undecodable W item str ->
  collect W (item :: rest) h = Aborted (DecodeError str).
Proof.
  intros [Hemb Hfail]. unfold embedded in Hemb.
  destruct item as [| | | |?|i]; try discriminate. simpl.
  destruct (jget i "v1Compatibility") as [| | |s| |]; try discriminate.
  injection Hemb as ->. by rewrite Hfail.
Qed.

Lemma collect_readable items cs h :
  Forall2 (readable W) items cs ->
  collect W items h = Collected (h ++ (parse_created W <$> cs)).
Proof.
  intros Hall. revert h.
  induction Hall as [|item c items cs Hitem _ IH]; intros h.
  - simpl. by rewrite app_nil_r.
  - rewrite (collect_step_readable _ _ _ _ Hitem), IH.
    by rewrite <- app_assoc.
Qed.

Lemma collect_undecodable good cs bad str rest h :
  Forall2 (readable W) good cs ->
  undecodable W bad str ->
  collect W (good ++ bad :: rest) h = Aborted (DecodeError str).
Proof.
  intros Hgood Hbad. revert h.
  induction Hgood as [|item c good cs Hitem _ IH]; intros h.
  - by apply collect_step_undecodable.
  - simpl app. by rewrite (collect_step_readable _ _ _ _ Hitem), IH.
Qed.

Lemma Before_key t u : Before t u = (id t <? id u).
Proof. reflexivity. Qed.

Lemma latest_of_collected m items h :
  jget m "history" = JArr items ->
  collect W items [] = Collected h ->
  h <> [] ->
  exists t, latestCreation W m = Latest t /\
            t ∈ h /\ forall x, x ∈ h -> x <= t.
Proof.
  intros Hhist Hcollect Hne. unfold latestCreation.
  rewrite Hhist, Hcollect.
  destruct (sort_slice_last_is_Some Before h Hne) as [t Hlast].
  rewrite Hlast. exists t. split; [done|].
  apply (sort_slice_last id Before Before_key h t Hlast).
Qed.

Lemma exec_runs_task addr s i a rest :
  crashed s = false ->
  loop s = Running ->
  tasks s !! i = Some (a :: rest) ->
  exec W addr (RunTask i) s = Some (perform W addr s i a rest).
Proof. intros Hlive Hloop Htask. unfold exec. by rewrite Hlive, Hloop, Htask. Qed.

Lemma log_done_retires addr e : logs_and_retires W addr [Log e; Done] e.
Proof.
  intros s i Hlive Hloop Htask Hcounter.
  assert (i < length (tasks s))%nat as Hi by (by eapply lookup_lt_Some).
  set (s1 := perform W addr s i (Log e) [Done]).
  assert (exec W addr (RunTask i) s = Some s1) as Hstep1.
  { by apply exec_runs_task. }
  assert (tasks s1 !! i = Some [Done]) as Htask1.
  { simpl. by apply list_lookup_insert_eq. }
  set (s2 := perform W addr s1 i Done []).
  assert (exec W addr (RunTask i) s1 = Some s2) as Hstep2.
  { by apply exec_runs_task. }
  exists s2. split.
  { cbn [run]. by rewrite Hstep1, Hstep2. }
  unfold s2, perform. cbn [counter s1 perform].
  destruct (counter s - 1 <? 0) eqn:Hneg; [apply Z.ltb_lt in Hneg; lia|].
  simpl. rewrite list_insert_insert_eq, list_lookup_insert_eq by done.
  by repeat split.
Qed.

(** C2, as the code has it.  The history being split into a front of
    entries that go through the loop body (an object whose
    [v1Compatibility] string decodes to a document with a string
    [created]) and a rest: when the rest is empty and there is an entry,
    the creation time is the greatest of the entries' times, an unparsable
    [created] string counting as the zero time, and the task sends it;
    when the rest starts with an entry whose embedded document does not
    decode, the analysis stops there: the task logs that decode error,
    sends nothing and retires, so nothing is reported for the tag. *)
Theorem latestCreation_all_or_nothing (m : jmap) (good rest : list json)
    (cs : list string) :
  jget m "history" = JArr (good ++ rest) ->
  Forall2 (readable W) good cs ->
  (rest = [] -> good <> [] ->
   exists t, latestCreation W m = Latest t /\
             t ∈ (parse_created W <$> cs) /\
             (forall x, x ∈ (parse_created W <$> cs) -> x <= t) /\
             forall addr repo tag,
               getForMap W (manifest_url addr repo tag) = Fetched m ->
               fetchDetailOfTag W addr repo tag
               = [Send (PayLoad.mk DataTypeTagDetail repo tag
                          (TargetMap [("created", t)]));
                  Done]) /\
  (forall bad str rest', rest = bad :: rest' -> undecodable W bad str ->
   latestCreation W m = Dropped (DecodeError str) /\
   forall addr repo tag,
     getForMap W (manifest_url addr repo tag) = Fetched m ->
     fetchDetailOfTag W addr repo tag = [Log (DecodeError str); Done] /\
     logs_and_retires W addr (fetchDetailOfTag W addr repo tag)
                      (DecodeError str)).
Proof.
  intros Hhist Hgood. split.
  - intros -> Hne. rewrite app_nil_r in Hhist.
    destruct (latest_of_collected m good (parse_created W <$> cs))
      as (t & Hlatest & Hin & Hmax);
      [done|by apply (collect_readable good cs [])| |].
    { destruct Hgood; [done|discriminate]. }
    exists t. repeat split; try done.
    intros addr repo tag Hfetch. unfold fetchDetailOfTag.
    by rewrite Hfetch, Hlatest.
  - intros bad str rest' -> Hbad.
    assert (latestCreation W m = Dropped (DecodeError str)) as Hlatest.
    { unfold latestCreation.
      by rewrite Hhist, (collect_undecodable good cs bad str rest' [] Hgood Hbad). }
    split; [done|]. intros addr repo tag Hfetch.
    assert (fetchDetailOfTag W addr repo tag = [Log (DecodeError str); Done])
      as Htask.
    { unfold fetchDetailOfTag. by rewrite Hfetch, Hlatest. }
    split; [done|]. rewrite Htask. apply log_done_retires.
Qed.


(** C3, as the code has it.  When the history is not empty and no
    embedded document decodes, nothing is reported for the tag: the task
    logs the decode error of the first entry, sends no message, and its
    deferred [wg.Done()] retires one unit without crashing the run, the
    counter being positive at that point. *)
Theorem undecodable_history_reports_nothing (addr repo tag : string)
    (m : jmap) (first : json) (str : string) (rest : list json)
    (strs : list string) :
  getForMap W (manifest_url addr repo tag) = Fetched m ->
  jget m "history" = JArr (first :: rest) ->
  Forall2 (undecodable W) (first :: rest) (str :: strs) ->
  latestCreation W m = Dropped (DecodeError str) /\
  fetchDetailOfTag W addr repo tag = [Log (DecodeError str); Done] /\
  logs_and_retires W addr (fetchDetailOfTag W addr repo tag) (DecodeError str).
Proof.
  intros Hfetch Hhist Hall.
  apply Forall2_cons in Hall as [Hfirst _].
  assert (latestCreation W m = Dropped (DecodeError str)) as Hlatest.
  { unfold latestCreation.
    by rewrite Hhist, (collect_step_undecodable first str rest [] Hfirst). }
  assert (fetchDetailOfTag W addr repo tag = [Log (DecodeError str); Done])
    as Htask.
  { unfold fetchDetailOfTag. by rewrite Hfetch, Hlatest. }
  repeat split; try done. rewrite Htask. apply log_done_retires.
Qed.
End HistoryAnalyzer.

Lemma entry_readable created :
  created ∈ [jan1; jan2; "yesterday"] -> readable demo (entry created) created.
Proof.
  intros Hin. exists (layer_text created). split; [reflexivity|].
  repeat (apply elem_of_cons in Hin as [->|Hin]; [reflexivity|]).
  inversion Hin.
Qed.

Lemma latestCreation_all_or_nothing_witness :
  (exists t, latestCreation demo doc_v2 = Latest t /\
             t ∈ (parse_created demo <$> [jan1; jan2]) /\
             (forall x, x ∈ (parse_created demo <$> [jan1; jan2]) -> x <= t) /\
             forall addr repo tag,
               getForMap demo (manifest_url addr repo tag) = Fetched doc_v2 ->
               fetchDetailOfTag demo addr repo tag
               = [Send (PayLoad.mk DataTypeTagDetail repo tag
                          (TargetMap [("created", t)]));
                  Done]) /\
  (latestCreation demo doc_broken = Dropped (DecodeError "not json") /\
   fetchDetailOfTag demo "http://odd" "a" "broken"
   = [Log (DecodeError "not json"); Done] /\
   exists s',
     run demo "http://odd" [RunTask 0%nat; RunTask 0%nat] broken_detail_state
     = Some s' /\
     logged s' = [DecodeError "not json"] /\
     processed s' = [] /\
     counter s' = 0 /\
     crashed s' = false).
Proof.
  split.
  - refine (proj1 (latestCreation_all_or_nothing demo doc_v2
                     [entry jan1; entry jan2] [] [jan1; jan2] _ _) _ _).
    + reflexivity.
    + repeat constructor; apply entry_readable; repeat constructor.
    + reflexivity.
    + discriminate.
  - destruct (proj2 (latestCreation_all_or_nothing demo doc_broken
                       [entry jan2] [JObj [("v1Compatibility", JStr "not json")]]
                       [jan2] eq_refl
                       ltac:(repeat constructor; apply entry_readable;
                             repeat constructor))
                    _ "not json" [] eq_refl (conj eq_refl eq_refl))
      as [Hlatest Htasks].
    destruct (Htasks "http://odd" "a" "broken" eq_refl) as [Htask Hretires].
    split; [exact Hlatest|]. split; [exact Htask|].
    destruct (Hretires broken_detail_state 0%nat eq_refl eq_refl eq_refl
                ltac:(reflexivity))
      as (s' & Hrun & Hlogged & Hprocessed & _ & Hcounter & _ & Hlive & _).
    exists s'. repeat split; try done.
Defined.

(** C2, as stated, fails: of the two entries of this manifest the first
    parses, to January 2, and the second does not; the specified result is
    January 2, the code reports nothing. *)
Lemma skipping_bad_entries_refuted :
  ~ (forall (W : World) m items t,
       jget m "history" = JArr items ->
       specified_latest W items = Some t ->
       latestCreation W m = Latest t).
Proof.
  intros claim.
  specialize (claim demo doc_broken _ jan2_time eq_refl eq_refl).
  vm_compute in claim. discriminate claim.
Qed.

Example latest_of_two_layers : latestCreation demo doc_v2 = Latest jan2_time.
Proof. reflexivity. Qed.


Example undated_layer_reported_with_zero_time :
  fetchDetailOfTag demo "http://odd" "a" "undated"
  = [Send (PayLoad.mk "td" "a" "undated" (TargetMap [("created", 0)])); Done].
Proof. reflexivity. Qed.

Lemma undecodable_history_reports_nothing_witness :
  latestCreation broken doc_all_broken = Dropped (DecodeError "not json") /\
  fetchDetailOfTag broken "http://broken" "a" "allbroken"
  = [Log (DecodeError "not json"); Done] /\
  exists s',
    run broken "http://broken" [RunTask 2%nat; RunTask 2%nat] broken_listed
    = Some s' /\
    logged s' = logged broken_listed ++ [DecodeError "not json"] /\
    processed s' = processed broken_listed /\
    result s' = result broken_listed /\
    counter s' = counter broken_listed - 1 /\
    tasks s' !! 2%nat = Some [] /\
    crashed s' = false /\
    loop s' = Running.
Proof.
  destruct (undecodable_history_reports_nothing broken "http://broken" "a"
              "allbroken" doc_all_broken
              (JObj [("v1Compatibility", JStr "not json")]) "not json" [] [])
    as (Hlatest & Htask & Hretires).
  - reflexivity.
  - reflexivity.
  - repeat constructor.
  - split; [exact Hlatest|]. split; [exact Htask|].
    apply (Hretires broken_listed 2%nat); reflexivity.
Defined.

(** C3, as stated, fails: for a manifest none of whose entries parses, the
    task sends nothing at all, so no marker of any kind reaches the owner. *)
Lemma no_unavailable_marker :
  ~ (forall (W : World) addr repo tag m items strs,
       getForMap W (manifest_url addr repo tag) = Fetched m ->
       jget m "history" = JArr items ->
       Forall2 (undecodable W) items strs ->
       exists p, Send p ∈ fetchDetailOfTag W addr repo tag /\
                 Panic ∉ fetchDetailOfTag W addr repo tag).
Proof.
  intros claim.
  destruct (claim demo "http://odd" "a" "allbroken" doc_all_broken
              [JObj [("v1Compatibility", JStr "not json")]] ["not json"]
              eq_refl eq_refl) as (p & Hsend & _).
  - repeat constructor.
  - vm_compute in Hsend.
    apply elem_of_cons in Hsend as [Heq|Hsend]; [discriminate Heq|].
    apply elem_of_cons in Hsend as [Heq|Hsend]; [discriminate Heq|].
    inversion Hsend.
Qed.

(** With an empty history the index [h[len(h) - 1]] is out of range: the
    deferred [wg.Done()] runs and the panic ends the process. *)
Example empty_history_panics :
  latestCreation demo doc_no_history = Crashed /\
  fetchDetailOfTag demo "http://odd" "a" "nohistory" = [Done; Panic].
Proof. split; reflexivity. Qed.

(** ** What the tasks send *)

Section Provenance.
Variables (W : World) (addr : string).

Lemma send_fetchRepos p :
  Send p ∈ fetchRepos W addr ->
  exists repos,
    p = PayLoad.mk DataTypeRepoList "" "" (TargetList repos) /\
    catalog_repos W addr = strings_in repos.
Proof.
  unfold fetchRepos, catalog_repos.
  destruct (getForMap W (catalog_url addr)) as [m|e].
  - destruct (jget m "repositories") as [| | | |repos|];
      intros Hin; repeat (apply elem_of_cons in Hin as [Hp|Hin]; try discriminate Hp);
      try (by inversion Hin).
    injection Hp as ->. by exists repos.
  - intros Hin.
    repeat (apply elem_of_cons in Hin as [Hp|Hin]; try discriminate Hp).
    inversion Hin.
Qed.

Lemma send_fetchTags repo p :
  Send p ∈ fetchTags W addr repo ->
  exists tags,
    p = PayLoad.mk DataTypeTagList repo "" (TargetList tags) /\
    repo_tags W addr repo = strings_in tags.
Proof.
  unfold fetchTags, repo_tags.
  destruct (getForMap W (tags_url addr repo)) as [m|e].
  - destruct (jget m "tags") as [| | | |tags|];
      intros Hin; repeat (apply elem_of_cons in Hin as [Hp|Hin]; try discriminate Hp);
      try (by inversion Hin).
    injection Hp as ->. by exists tags.
  - intros Hin.
    repeat (apply elem_of_cons in Hin as [Hp|Hin]; try discriminate Hp).
    inversion Hin.
Qed.

Lemma send_fetchDetailOfTag repo tag p :
  Send p ∈ fetchDetailOfTag W addr repo tag ->
  exists m t,
    getForMap W (manifest_url addr repo tag) = Fetched m /\
    p = PayLoad.mk DataTypeTagDetail repo tag (TargetMap [("created", t)]).
Proof.
  unfold fetchDetailOfTag.
  destruct (getForMap W (manifest_url addr repo tag)) as [m|e].
  - destruct (latestCreation W m) as [t|e|];
      intros Hin; repeat (apply elem_of_cons in Hin as [Hp|Hin]; try discriminate Hp);
      try (by inversion Hin).
    injection Hp as ->. by exists m, t.
  - intros Hin.
    repeat (apply elem_of_cons in Hin as [Hp|Hin]; try discriminate Hp).
    inversion Hin.
Qed.

Lemma as_strings_strings_in items l :
  as_strings items = Some l -> l = strings_in items.
Proof.
  revert l. induction items as [|item rest IH]; simpl; intros l Hl.
  - by injection Hl as <-.
  - destruct item as [| | |s| |]; try discriminate.
    destruct (as_strings rest) as [l'|]; [|discriminate].
    injection Hl as <-. by rewrite (IH l').
Qed.

Lemma legit_task_tail a rest :
  legit_task W addr (a :: rest) -> legit_task W addr rest.
Proof.
  intros (full & before & Horigin & ->).
  exists (before ++ a :: rest), (before ++ [a]).
  split; [done|]. by rewrite <- app_assoc.
Qed.

Lemma legit_task_send p rest :
  legit_task W addr (Send p :: rest) -> legit_payload W addr p.
Proof.
  intros (full & before & Horigin & ->).
  exists (before ++ Send p :: rest). split; [done|]. set_solver.
Qed.

Lemma legit_task_whole t : task_origin W addr t -> legit_task W addr t.
Proof. intros Horigin. by exists t, []. Qed.

(** A detail message is sent by the detail task of a declared tag of a
    declared repository, after a successful fetch of the manifest. *)
Lemma legit_detail p :
  legit_payload W addr p ->
  PayLoad.Type_ p = DataTypeTagDetail ->
  PayLoad.Repo p ∈ catalog_repos W addr /\
  exists tag m,
    tag ∈ repo_tags W addr (PayLoad.Repo p) /\
    getForMap W (manifest_url addr (PayLoad.Repo p) tag) = Fetched m.
Proof.
  intros (full & Horigin & Hsend) Htype.
  destruct Horigin as [|repo Hrepo|repo tag Hrepo Htag].
  - apply send_fetchRepos in Hsend as (repos & -> & _). discriminate Htype.
  - apply send_fetchTags in Hsend as (tags & -> & _). discriminate Htype.
  - apply send_fetchDetailOfTag in Hsend as (m & t & Hfetch & ->). simpl.
    split; [done|]. by exists tag, m.
Qed.

(** The goroutines the owner starts for a payload are tasks of declared
    repositories and tags. *)
Lemma handle_spawns_legit p res spawned res' :
  legit_payload W addr p ->
  handle W addr p res = Some (spawned, res') ->
  Forall (legit_task W addr) spawned.
Proof.
  intros (full & Horigin & Hsend). unfold handle.
  destruct (String.eqb (PayLoad.Type_ p) DataTypeRepoList) eqn:Hrs.
  { apply String.eqb_eq in Hrs.
    destruct Horigin as [|repo Hrepo|repo tag Hrepo Htag].
    - apply send_fetchRepos in Hsend as (repos & -> & Hcatalog). simpl.
      destruct (as_strings repos) as [l|] eqn:Hl; [|discriminate].
      intros [= <- _]. apply as_strings_strings_in in Hl as ->.
      apply Forall_fmap, Forall_forall. intros repo Hrepo.
      apply legit_task_whole, origin_tags. by rewrite Hcatalog.
    - apply send_fetchTags in Hsend as (tags & -> & _). discriminate Hrs.
    - apply send_fetchDetailOfTag in Hsend as (m & t & _ & ->).
      discriminate Hrs. }
  destruct (String.eqb (PayLoad.Type_ p) DataTypeTagList) eqn:Hts.
  { apply String.eqb_eq in Hts.
    destruct Horigin as [|repo Hrepo|repo tag Hrepo Htag].
    - apply send_fetchRepos in Hsend as (repos & -> & _). discriminate Hts.
    - apply send_fetchTags in Hsend as (tags & -> & Htags). simpl.
      destruct (as_strings tags) as [l|] eqn:Hl; [|discriminate].
      intros [= <- _]. apply as_strings_strings_in in Hl as ->.
      apply Forall_fmap, Forall_forall. intros tag Htag.
      apply legit_task_whole, origin_detail; [done|]. by rewrite Htags.
    - apply send_fetchDetailOfTag in Hsend as (m & t & _ & ->).
      discriminate Hts. }
  destruct (String.eqb (PayLoad.Type_ p) DataTypeTagDetail).
  - destruct (PayLoad.Target p) as [|r]; [discriminate|].
    destruct (rget r "created"); [|discriminate].
    intros [= <- _]. constructor.
  - intros [= <- _]. constructor.
Qed.

(** Only a detail message changes the result set, by one appended
    element under its repository. *)
Lemma handle_result p res spawned res' :
  handle W addr p res = Some (spawned, res') ->
  (PayLoad.Type_ p = DataTypeTagDetail /\
   exists d, res' = append_detail res (PayLoad.Repo p) d) \/
  (PayLoad.Type_ p <> DataTypeTagDetail /\ res' = res).
Proof.
  unfold handle.
  destruct (String.eqb (PayLoad.Type_ p) DataTypeRepoList) eqn:Hrs.
  { apply String.eqb_eq in Hrs.
    destruct (PayLoad.Target p) as [items|]; [|discriminate].
    destruct (as_strings items); [|discriminate].
    intros [= _ <-]. right. split; [|done]. by rewrite Hrs. }
  destruct (String.eqb (PayLoad.Type_ p) DataTypeTagList) eqn:Hts.
  { apply String.eqb_eq in Hts.
    destruct (PayLoad.Target p) as [items|]; [|discriminate].
    destruct (as_strings items); [|discriminate].
    intros [= _ <-]. right. split; [|done]. by rewrite Hts. }
  destruct (String.eqb (PayLoad.Type_ p) DataTypeTagDetail) eqn:Htd.
  - apply String.eqb_eq in Htd.
    destruct (PayLoad.Target p) as [|r]; [discriminate|].
    destruct (rget r "created") as [t|]; [|discriminate].
    intros [= _ <-]. left. split; [done|]. by eexists.
  - apply String.eqb_neq in Htd. intros [= _ <-]. by right.
Qed.
End Provenance.

(** ** Every state of every run is consistent *)

Section Runs.
Variables (W : World) (addr : string).

Lemma consistent_init : consistent W addr (init W addr).
Proof.
  constructor; simpl.
  - repeat constructor. apply legit_task_whole, origin_repos.
  - constructor.
  - intros k. rewrite dom_empty_L. split; [set_solver|].
    intros (p & Hp & _). inversion Hp.
  - intros k. by rewrite lookup_empty.
  - discriminate.
Qed.

Lemma consistent_crash s : consistent W addr s -> consistent W addr (crash s).
Proof. intros [? ? ? ? ?]. by constructor. Qed.

Lemma append_detail_dom res repo d k :
  k ∈ dom (append_detail res repo d) <-> k = repo \/ k ∈ dom res.
Proof. unfold append_detail. rewrite dom_insert_L. set_solver. Qed.

Lemma append_detail_not_empty res repo d k :
  res !! k <> Some [] -> append_detail res repo d !! k <> Some [].
Proof.
  intros Hres. unfold append_detail.
  destruct (decide (repo = k)) as [->|Hne].
  - rewrite lookup_insert_eq. intros [= Heq].
    by apply app_eq_nil in Heq as [_ ?].
  - by rewrite lookup_insert_ne.
Qed.

Lemma consistent_perform s i a rest :
  consistent W addr s ->
  loop s = Running ->
  tasks s !! i = Some (a :: rest) ->
  consistent W addr (perform W addr s i a rest).
Proof.
  intros Hs Hloop Htask.
  pose proof Hs as [Htasks Hprocessed Hkeys Hnonempty Hreturned].
  assert (legit_task W addr (a :: rest)) as Hlegit.
  { by apply (Forall_lookup_1 _ _ _ _ Htasks Htask). }
  assert (Forall (legit_task W addr) (<[i := rest]> (tasks s))) as Htasks'.
  { apply Forall_insert; [done|]. by apply legit_task_tail in Hlegit. }
  unfold perform. destruct a as [e|p|delta| |].
  - by constructor.
  - apply legit_task_send in Hlegit.
    destruct (handle W addr p (result s)) as [[spawned res']|] eqn:Hhandle;
      [|by apply consistent_crash].
    pose proof (handle_spawns_legit W addr p _ _ _ Hlegit Hhandle) as Hspawned.
    assert (Forall (legit_payload W addr) (processed s ++ [p])) as Hprocessed'.
    { apply Forall_app. split; [done|]. by repeat constructor. }
    apply handle_result in Hhandle as [[Htype [d ->]]|[Htype ->]].
    + constructor; simpl.
      * by apply Forall_app.
      * done.
      * intros k. rewrite append_detail_dom, Hkeys. split.
        -- intros [->|(q & Hq & Hdetail)].
           ++ exists p. split; [|done]. apply elem_of_app. right. by constructor.
           ++ exists q. split; [|done]. apply elem_of_app. by left.
        -- intros (q & Hq & Hdetail).
           apply elem_of_app in Hq as [Hq| ->%list_elem_of_singleton].
           ++ right. by exists q.
           ++ left. by destruct Hdetail as [_ <-].
      * intros k. by apply append_detail_not_empty.
      * intros out. by rewrite Hloop.
    + constructor; simpl.
      * by apply Forall_app.
      * done.
      * intros k. rewrite Hkeys. split.
        -- intros (q & Hq & Hdetail). exists q. split; [|done].
           apply elem_of_app. by left.
        -- intros (q & Hq & Hdetail).
           apply elem_of_app in Hq as [Hq| ->%list_elem_of_singleton].
           ++ by exists q.
           ++ by destruct Hdetail as [? _].
      * done.
      * done.
  - by constructor.
  - destruct (counter s - 1 <? 0); [by apply consistent_crash|by constructor].
  - by apply consistent_crash.
Qed.

Lemma consistent_exec c s s' :
  consistent W addr s -> exec W addr c s = Some s' -> consistent W addr s'.
Proof.
  intros Hs. unfold exec.
  destruct (crashed s || negb (is_running (loop s))) eqn:Hlive; [discriminate|].
  apply orb_false_elim in Hlive as [_ Hrunning].
  assert (loop s = Running) as Hloop.
  { destruct (loop s); [done|discriminate]. }
  destruct c as [i| |].
  - destruct (tasks s !! i) as [[|a rest]|] eqn:Htask; try discriminate.
    intros [= <-]. by apply consistent_perform.
  - destruct (watch s); try discriminate.
    destruct (counter s =? 0); [|discriminate].
    intros [= <-]. destruct Hs. by constructor.
  - destruct (watch s); try discriminate.
    intros [= <-]. destruct Hs. constructor; simpl; try done.
    by intros out [= <-].
Qed.

Lemma reachable_consistent s : reachable W addr s -> consistent W addr s.
Proof.
  induction 1 as [|s c s' _ IH Hexec]; [apply consistent_init|].
  by apply (consistent_exec c s s').
Qed.

Lemma run_app cs cs' s s1 :
  run W addr cs s = Some s1 ->
  run W addr (cs ++ cs') s = run W addr cs' s1.
Proof.
  revert s. induction cs as [|c cs IH]; simpl; intros s.
  - by intros [= <-].
  - destruct (exec W addr c s) as [s2|]; [apply IH|discriminate].
Qed.

Lemma run_reachable cs s s' :
  reachable W addr s -> run W addr cs s = Some s' -> reachable W addr s'.
Proof.
  revert s. induction cs as [|c cs IH]; simpl; intros s Hs.
  - by intros [= <-].
  - destruct (exec W addr c s) as [s1|] eqn:Hexec; [|discriminate].
    apply IH. by apply (reach_step W addr s c s1).
Qed.
End Runs.

(** ** The report *)

Section Report.
Variable W : World.



(** C4.  Every key of the result set that [getRepoInfo] returns is one of
    the repository names of the catalog response. *)
Theorem result_keys_declared (reg : Registry) (out : ResultSet) (k : string) :
  getRepoInfo_returns W reg out ->
  k ∈ dom out ->
  k ∈ catalog_repos W (Addr reg).
Proof.
  intros (s & Hreach & Hloop) Hk.
  apply reachable_consistent in Hreach as [_ Hprocessed Hkeys _ Hreturned].
  rewrite (Hreturned out Hloop) in Hk. unfold finalize in Hk.
  rewrite dom_fmap_L in Hk.
  apply Hkeys in Hk as (p & Hp & Htype & <-).
  rewrite Forall_forall in Hprocessed.
  by apply (legit_detail W (Addr reg) p (Hprocessed p Hp)).
Qed.


(** C10.  A name is a key of the returned result set exactly when the
    owner has handled a detail message of that repository, and no key is
    mapped to an empty sequence.  So a repository whose tag list cannot be
    fetched, or is empty, or none of whose manifests can be fetched, is
    not a key. *)
Theorem key_iff_detail_processed (reg : Registry) (s : state)
    (out : ResultSet) (k : string) :
  reachable W (Addr reg) s ->
  loop s = Returned out ->
  (k ∈ dom out <-> exists p, p ∈ processed s /\ is_detail_for k p) /\
  out !! k <> Some [] /\
  ((exists e, getForMap W (tags_url (Addr reg) k) = FetchError e) \/
   (exists m, getForMap W (tags_url (Addr reg) k) = Fetched m /\
              jget m "tags" = JArr []) \/
   (forall tag, tag ∈ repo_tags W (Addr reg) k ->
      exists e, getForMap W (manifest_url (Addr reg) k tag) = FetchError e) ->
   k ∉ dom out).
Proof.
  intros Hreach Hloop.
  apply reachable_consistent in Hreach
    as [_ Hprocessed Hkeys Hnonempty Hreturned].
  rewrite (Hreturned out Hloop). unfold finalize.
  rewrite dom_fmap_L, lookup_fmap. repeat split.
  - apply Hkeys.
  - apply Hkeys.
  - destruct (result s !! k) as [received|] eqn:Hreceived; [|discriminate].
    simpl. intros [= Hnil]. apply (Hnonempty k). rewrite Hreceived. f_equal.
    apply Permutation_nil.
    by rewrite <- (sort_slice_Permutation by_created_desc received), Hnil.
  - intros Hnone Hk. apply Hkeys in Hk as (p & Hp & Htype & <-).
    rewrite Forall_forall in Hprocessed.
    destruct (legit_detail W (Addr reg) p (Hprocessed p Hp) Htype)
      as (_ & tag & m & Htag & Hfetch).
    destruct Hnone as [[e He]|[(m' & Hm' & Hempty)|Hmanifests]].
    + unfold repo_tags in Htag. rewrite He in Htag. inversion Htag.
    + unfold repo_tags in Htag. rewrite Hm', Hempty in Htag. inversion Htag.
    + destruct (Hmanifests tag Htag) as [e He]. congruence.
Qed.
End Report.

(** ** Failed tasks *)

Section Failures.
Variables (W : World) (addr : string).

Lemma exec_task s i a rest :
  crashed s = false ->
  loop s = Running ->
  tasks s !! i = Some (a :: rest) ->
  exec W addr (RunTask i) s = Some (perform W addr s i a rest).
Proof. intros Hlive Hloop Htask. unfold exec. by rewrite Hlive, Hloop, Htask. Qed.


End Failures.

(** ** The runs of the examples *)

Lemma run_reg_returns :
  exists s,
    run demo "http://reg" schedule_reg (init demo "http://reg") = Some s /\
    loop s = Returned reg_out /\
    processed s =
      [ PayLoad.mk "rs" "" "" (TargetList [JStr "a"; JStr "b"]);
        PayLoad.mk "ts" "a" "" (TargetList [JStr "v1"; JStr "v2"]);
        PayLoad.mk "ts" "b" "" (TargetList []);
        PayLoad.mk "td" "a" "v1" (TargetMap [("created", jan1_time)]);
        PayLoad.mk "td" "a" "v2" (TargetMap [("created", jan2_time)]) ].
Proof. eexists. split; [|split]; vm_compute; reflexivity. Qed.

Lemma reg_returns : getRepoInfo_returns demo (raw_registry "http://reg") reg_out.
Proof.
  destruct run_reg_returns as (s & Hrun & Hloop & _).
  exists s. split; [|done].
  eapply run_reachable; [apply reach_init|exact Hrun].
Qed.



Lemma result_keys_declared_witness : "a" ∈ catalog_repos demo "http://reg".
Proof.
  apply (result_keys_declared demo (raw_registry "http://reg") reg_out "a").
  - apply reg_returns.
  - apply elem_of_dom. eexists. vm_compute. reflexivity.
Defined.



Lemma key_iff_detail_processed_witness :
  ("b" ∉ dom reg_out) /\ (reg_out !! "b" <> Some []).
Proof.
  destruct run_reg_returns as (s & Hrun & Hloop & _).
  destruct (key_iff_detail_processed demo (raw_registry "http://reg") s
              reg_out "b") as (_ & Hnonempty & Hnone).
  - eapply run_reachable; [apply reach_init|exact Hrun].
  - exact Hloop.
  - split; [|exact Hnonempty].
    apply Hnone. right. left. exists doc_tags_b. split; reflexivity.
Defined.

Example reg_keys_are_detailed_repos :
  forall k, k ∈ dom reg_out <-> k = "a".
Proof. intros k. unfold reg_out. rewrite dom_singleton_L. set_solver. Qed.



(** A shape error is no logged failure either: a page that decodes but has
    no [repositories] list makes the type assertion of [fetchRepos] panic. *)
Example missing_field_panics :
  forall W addr m,
    getForMap W (catalog_url addr) = Fetched m ->
    jget m "repositories" = JNull ->
    fetchRepos W addr = [Done; Panic].
Proof. intros W addr m Hfetch Hnull. unfold fetchRepos. by rewrite Hfetch, Hnull. Qed.

(** ** Completion detection *)

(** C1 fails on the code.  In this run against [flaky] the owner has
    received the catalog and started the tag tasks of [a] and [b]; the task
    of [a] fails and retires while [fetchRepos] has not yet added its two
    units.  The counter is zero although the task of [b] has not run and
    [fetchRepos] has not finished; the watcher can be released and the owner
    returns an empty result with these goroutines still pending.  In a run
    where [fetchRepos] adds its units first, the owner returns the two tags
    of [b]. *)
Theorem counter_zero_with_pending_children :
  exists s s' s'',
    reachable demo "http://flaky" s /\
    counter s = 0 /\
    tasks s = [ [Add 2; Done]; []; fetchTags demo "http://flaky" "b" ] /\
    fetchTags demo "http://flaky" "b"
      = [ Send (PayLoad.mk "ts" "b" "" (TargetList [JStr "v1"; JStr "v2"]));
          Add 2; Done ] /\
    run demo "http://flaky" [Watch; Finish] s = Some s' /\
    loop s' = Returned ∅ /\
    tasks s' = tasks s /\
    reachable demo "http://flaky" s'' /\
    loop s'' = Returned flaky_out.
Proof.
  assert (exists s, run demo "http://flaky" schedule_race (init demo "http://flaky")
                    = Some s /\
                    counter s = 0 /\
                    tasks s = [ [Add 2; Done]; []; fetchTags demo "http://flaky" "b" ])
    as (s & Hrun & Hcounter & Htasks).
  { eexists. split; [|split]; vm_compute; reflexivity. }
  assert (exists s', run demo "http://flaky" (schedule_race ++ [Watch; Finish])
                       (init demo "http://flaky") = Some s' /\
                     loop s' = Returned ∅ /\
                     tasks s' = [ [Add 2; Done]; []; fetchTags demo "http://flaky" "b" ])
    as (s' & Hrun' & Hloop' & Htasks').
  { eexists. split; [|split]; vm_compute; reflexivity. }
  assert (exists s'', run demo "http://flaky" schedule_flaky (init demo "http://flaky")
                      = Some s'' /\
                      loop s'' = Returned flaky_out)
    as (s'' & Hrun'' & Hloop'').
  { eexists. split; vm_compute; reflexivity. }
  exists s, s', s''. repeat split; try done.
  - eapply run_reachable; [apply reach_init|exact Hrun].
  - rewrite <- Hrun'. symmetry. apply run_app. exact Hrun.
  - by rewrite Htasks, Htasks'.
  - eapply run_reachable; [apply reach_init|exact Hrun''].
Qed.

(** ** The counter and the goroutines *)

Section Accounting.
Variables (W : World) (addr : string).

Lemma as_strings_length items l :
  as_strings items = Some l -> length l = length items.
Proof.
  revert l. induction items as [|item rest IH]; simpl; intros l Hl.
  - by injection Hl as <-.
  - destruct item as [| | |s| |]; try discriminate.
    destruct (as_strings rest) as [l'|]; [|discriminate].
    injection Hl as <-. simpl. by rewrite (IH l').
Qed.

Lemma balance_fetchRepos : balance (fetchRepos W addr) = 1.
Proof.
  unfold fetchRepos. destruct (getForMap W (catalog_url addr)) as [m|e]; [|done].
  destruct (jget m "repositories"); try done.
  cbn. lia.
Qed.

Lemma balance_fetchTags repo : balance (fetchTags W addr repo) = 1.
Proof.
  unfold fetchTags. destruct (getForMap W (tags_url addr repo)) as [m|e]; [|done].
  destruct (jget m "tags"); try done.
  cbn. lia.
Qed.

Lemma balance_fetchDetailOfTag repo tag :
  balance (fetchDetailOfTag W addr repo tag) = 1.
Proof.
  unfold fetchDetailOfTag.
  destruct (getForMap W (manifest_url addr repo tag)) as [m|e]; [|done].
  by destruct (latestCreation W m).
Qed.

Lemma outstanding_app ts1 ts2 :
  outstanding (ts1 ++ ts2) = outstanding ts1 + outstanding ts2.
Proof. induction ts1 as [|t ts1 IH]; simpl; lia. Qed.

Lemma outstanding_insert ts i t t' :
  ts !! i = Some t ->
  outstanding (<[i := t']> ts) = outstanding ts - balance t + balance t'.
Proof.
  revert i. induction ts as [|t0 ts IH]; intros [|i]; simpl; try discriminate.
  - intros [= ->]. lia.
  - intros Hi. rewrite (IH i Hi). lia.
Qed.

Lemma outstanding_whole (f : string -> task) names :
  (forall name, balance (f name) = 1) ->
  outstanding (map f names) = Z.of_nat (length names).
Proof.
  intros Hf. induction names as [|name names IH]; [done|].
  simpl outstanding. rewrite Hf, IH. simpl length. lia.
Qed.

(** The goroutines started for a payload owe one unit each, as many as the
    sender is going to add. *)
Lemma handle_outstanding p res spawned res' :
  handle W addr p res = Some (spawned, res') ->
  outstanding spawned = spawn_count p.
Proof.
  unfold handle, spawn_count.
  destruct (String.eqb (PayLoad.Type_ p) DataTypeRepoList) eqn:Hrs.
  { destruct (PayLoad.Target p) as [items|]; [|discriminate].
    destruct (as_strings items) as [l|] eqn:Hl; [|discriminate].
    intros [= <- _]. rewrite (outstanding_whole _ _ balance_fetchTags).
    by rewrite (as_strings_length _ _ Hl). }
  destruct (String.eqb (PayLoad.Type_ p) DataTypeTagList) eqn:Hts.
  { destruct (PayLoad.Target p) as [items|]; [|discriminate].
    destruct (as_strings items) as [l|] eqn:Hl; [|discriminate].
    intros [= <- _].
    rewrite (outstanding_whole _ _ (balance_fetchDetailOfTag (PayLoad.Repo p))).
    by rewrite (as_strings_length _ _ Hl). }
  simpl. destruct (String.eqb (PayLoad.Type_ p) DataTypeTagDetail).
  - destruct (PayLoad.Target p) as [|r]; [discriminate|].
    destruct (rget r "created"); [|discriminate]. by intros [= <- _].
  - by intros [= <- _].
Qed.

Lemma perform_outstanding s i a rest :
  tasks s !! i = Some (a :: rest) ->
  counter s = outstanding (tasks s) ->
  counter (perform W addr s i a rest)
  = outstanding (tasks (perform W addr s i a rest)).
Proof.
  intros Htask Hcounter.
  pose proof (outstanding_insert (tasks s) i (a :: rest) rest Htask) as Hinsert.
  unfold perform. destruct a as [e|p|delta| |]; simpl in *.
  - lia.
  - destruct (handle W addr p (result s)) as [[spawned res']|] eqn:Hhandle;
      [|done].
    simpl. rewrite outstanding_app, (handle_outstanding _ _ _ _ Hhandle). lia.
  - lia.
  - destruct (counter s - 1 <? 0); simpl; [done|lia].
  - done.
Qed.

Lemma reachable_outstanding s :
  reachable W addr s -> counter s = outstanding (tasks s).
Proof.
  induction 1 as [|s c s' _ IH Hexec].
  - simpl. rewrite balance_fetchRepos. lia.
  - unfold exec in Hexec.
    destruct (crashed s || negb (is_running (loop s))); [discriminate|].
    destruct c as [i| |].
    + destruct (tasks s !! i) as [[|a rest]|] eqn:Htask; try discriminate.
      injection Hexec as <-. by apply perform_outstanding.
    + destruct (watch s); try discriminate.
      destruct (counter s =? 0); [|discriminate]. by injection Hexec as <-.
    + destruct (watch s); try discriminate. by injection Hexec as <-.
Qed.
End Accounting.

(** ** The shapes of the goroutines *)

Section Shapes.
Variables (W : World) (addr : string).

Lemma origin_shape full : task_origin W addr full -> shape full.
Proof.
  intros [|repo _|repo tag _ _].
  - unfold fetchRepos. destruct (getForMap W (catalog_url addr)) as [m|e];
      [|constructor].
    destruct (jget m "repositories") as [| | | |repos|]; try (by constructor).
    apply (shape_send_list (PayLoad.mk DataTypeRepoList "" "" (TargetList repos))).
    cbn. lia.
  - unfold fetchTags. destruct (getForMap W (tags_url addr repo)) as [m|e];
      [|constructor].
    destruct (jget m "tags") as [| | | |tags|]; try (by constructor).
    apply (shape_send_list (PayLoad.mk DataTypeTagList repo "" (TargetList tags))).
    cbn. lia.
  - unfold fetchDetailOfTag.
    destruct (getForMap W (manifest_url addr repo tag)) as [m|e]; [|constructor].
    destruct (latestCreation W m); constructor. reflexivity.
Qed.

Lemma shape_tail a rest : shape (a :: rest) -> shape rest.
Proof.
  inversion 1; subst; try constructor; try done.
Qed.

Lemma shape_suffix before t : shape (before ++ t) -> shape t.
Proof.
  induction before as [|a before IH]; [done|].
  simpl. intros Hshape. by apply IH, (shape_tail a).
Qed.

Lemma legit_task_shape t : legit_task W addr t -> shape t.
Proof.
  intros (full & before & Horigin & ->).
  by apply (shape_suffix before), origin_shape.
Qed.

Lemma shape_balance t :
  shape t -> ~ about_to_add t ->
  balance t = if unretired t then 1 else 0.
Proof.
  intros Hshape Hwindow. destruct Hshape; simpl; try lia.
  destruct Hwindow. by eexists _, _.
Qed.

Lemma live_units_nonneg ts : 0 <= live_units ts.
Proof. induction ts as [|t ts IH]; simpl; [lia|]. destruct (unretired t); lia. Qed.

Lemma unretired_false t : unretired t = false -> Done ∉ t.
Proof.
  unfold unretired. intros Hnone Hin.
  apply list_elem_of_In in Hin.
  assert (existsb (fun a => match a with Done => true | _ => false end) t = true)
    as Hsome by (apply existsb_exists; by exists Done).
  congruence.
Qed.

(** X2.  The counter can only be short of the goroutines that have not
    retired while some goroutine is between its send and its [wg.Add]: in a
    state where no goroutine is at that point, the counter is the number of
    goroutines that have not called [wg.Done()], and it is zero only when
    all of them have. *)
Theorem counter_counts_unretired (s : state) :
  reachable W addr s ->
  (forall t, t ∈ tasks s -> ~ about_to_add t) ->
  counter s = live_units (tasks s) /\
  (counter s = 0 -> forall t, t ∈ tasks s -> Done ∉ t).
Proof.
  intros Hreach Hwindow.
  rewrite (reachable_outstanding W addr s Hreach).
  apply reachable_consistent in Hreach as [Hlegit _ _ _ _].
  rewrite Forall_forall in Hlegit.
  assert (forall ts,
            (forall t, t ∈ ts -> shape t /\ ~ about_to_add t) ->
            outstanding ts = live_units ts /\
            (outstanding ts = 0 -> forall t, t ∈ ts -> Done ∉ t)) as Hsum.
  { induction ts as [|t ts IH]; intros Hts.
    - split; [done|]. intros _ t Ht. inversion Ht.
    - destruct (Hts t) as [Hshape Hnot]; [by left|].
      destruct IH as [Heq Hzero]; [intros t' Ht'; apply Hts; by right|].
      simpl. rewrite (shape_balance t Hshape Hnot), Heq. split; [done|].
      pose proof (live_units_nonneg ts) as Hnonneg.
      destruct (unretired t) eqn:Hunretired; [lia|].
      intros Hsum t' [->|Ht']%elem_of_cons.
      + by apply unretired_false.
      + apply Hzero; [lia|done]. }
  apply Hsum. intros t Ht. split; [|by apply Hwindow].
  by apply legit_task_shape, Hlegit.
Qed.
End Shapes.

Section CounterSign.
Variables (W : World) (addr : string).

Lemma perform_nonneg s i a rest :
  shape (a :: rest) -> 0 <= counter s -> 0 <= counter (perform W addr s i a rest).
Proof.
  intros Hshape Hcounter. unfold perform.
  destruct a as [e|p|delta| |]; simpl; try done.
  - by destruct (handle W addr p (result s)) as [[spawned res']|].
  - inversion Hshape; subst. lia.
  - destruct (counter s - 1 <? 0) eqn:Hneg; [done|].
    simpl. apply Z.ltb_ge in Hneg. lia.
Qed.

(** X1.  In every state of every run the counter of the wait group is not
    negative, and it is the sum of what the goroutines owe: one for each
    goroutine that has not called [wg.Done()] yet, less the units of the
    [wg.Add] calls still to come, plus the goroutines still to be started
    for the lists not yet sent. *)
Theorem counter_is_outstanding (s : state) :
  reachable W addr s ->
  0 <= counter s /\ counter s = outstanding (tasks s).
Proof.
  intros Hreach. split; [|by apply (reachable_outstanding W addr)].
  induction Hreach as [|s c s' Hreach IH Hexec]; [simpl; lia|].
  apply reachable_consistent in Hreach as [Hlegit _ _ _ _].
  unfold exec in Hexec.
  destruct (crashed s || negb (is_running (loop s))); [discriminate|].
  destruct c as [i| |].
  - destruct (tasks s !! i) as [[|a rest]|] eqn:Htask; try discriminate.
    injection Hexec as <-. apply perform_nonneg; [|done].
    apply (legit_task_shape W addr), (Forall_lookup_1 _ _ _ _ Hlegit Htask).
  - destruct (watch s); try discriminate.
    destruct (counter s =? 0); [|discriminate]. by injection Hexec as <-.
  - destruct (watch s); try discriminate. by injection Hexec as <-.
Qed.
End CounterSign.

(** ** What the owner has started and received *)

Section Tracing.
Variables (W : World) (addr : string).

Lemma handle_children p res spawned res' :
  handle W addr p res = Some (spawned, res') ->
  children W addr p = spawned /\ is_Some (handle W addr p ∅).
Proof.
  unfold children, handle.
  destruct (String.eqb (PayLoad.Type_ p) DataTypeRepoList).
  { destruct (PayLoad.Target p) as [items|]; [|discriminate].
    destruct (as_strings items); [|discriminate]. intros [= <- _]. eauto. }
  destruct (String.eqb (PayLoad.Type_ p) DataTypeTagList).
  { destruct (PayLoad.Target p) as [items|]; [|discriminate].
    destruct (as_strings items); [|discriminate]. intros [= <- _]. eauto. }
  destruct (String.eqb (PayLoad.Type_ p) DataTypeTagDetail).
  - destruct (PayLoad.Target p) as [|r]; [discriminate|].
    destruct (rget r "created"); [|discriminate]. intros [= <- _]. eauto.
  - intros [= <- _]. eauto.
Qed.

Lemma append_detail_lookup res repo d k :
  default [] (append_detail res repo d !! k)
  = default [] (res !! k) ++ (if String.eqb repo k then [d] else []).
Proof.
  unfold append_detail. destruct (String.eqb repo k) eqn:Hk.
  - apply String.eqb_eq in Hk as ->. by rewrite lookup_insert_eq.
  - apply String.eqb_neq in Hk. rewrite lookup_insert_ne by done.
    by rewrite app_nil_r.
Qed.

Lemma handle_received p res spawned res' k :
  handle W addr p res = Some (spawned, res') ->
  default [] (res' !! k) = default [] (res !! k) ++ omap (detail_of k) [p].
Proof.
  unfold handle, detail_of. simpl.
  destruct (String.eqb (PayLoad.Type_ p) DataTypeRepoList) eqn:Hrs.
  { apply String.eqb_eq in Hrs. rewrite Hrs. simpl.
    destruct (PayLoad.Target p) as [items|]; [|discriminate].
    destruct (as_strings items); [|discriminate]. intros [= _ <-].
    by rewrite app_nil_r. }
  destruct (String.eqb (PayLoad.Type_ p) DataTypeTagList) eqn:Hts.
  { apply String.eqb_eq in Hts. rewrite Hts. simpl.
    destruct (PayLoad.Target p) as [items|]; [|discriminate].
    destruct (as_strings items); [|discriminate]. intros [= _ <-].
    by rewrite app_nil_r. }
  destruct (String.eqb (PayLoad.Type_ p) DataTypeTagDetail) eqn:Htd.
  - destruct (PayLoad.Target p) as [|r]; [discriminate|].
    destruct (rget r "created") as [t|]; [|discriminate]. intros [= _ <-].
    rewrite append_detail_lookup. simpl.
    by destruct (String.eqb (PayLoad.Repo p) k).
  - intros [= _ <-]. simpl. by rewrite app_nil_r.
Qed.

Lemma progressed_mono handled handled' whole t :
  (forall p, p ∈ handled -> p ∈ handled') ->
  progressed handled whole t -> progressed handled' whole t.
Proof.
  intros Hsub (before & -> & Hsent). exists before. split; [done|]. auto.
Qed.

Lemma progressed_step handled whole a rest :
  (forall p, a = Send p -> p ∈ handled) ->
  progressed handled whole (a :: rest) -> progressed handled whole rest.
Proof.
  intros Ha (before & -> & Hsent). exists (before ++ [a]).
  split; [by rewrite <- app_assoc|].
  intros p [Hp|Hp%list_elem_of_singleton]%elem_of_app; auto.
Qed.

Lemma Forall2_update {A B} (R : A -> B -> Prop) l k i y y' :
  Forall2 R l k ->
  k !! i = Some y ->
  (forall x, R x y -> R x y') ->
  Forall2 R l (<[i := y']> k).
Proof.
  intros Hall. revert i.
  induction Hall as [|x z l k Hxz Htail IH]; intros i Hi Hstep.
  - done.
  - destruct i as [|i]; simpl in *.
    + injection Hi as ->. constructor; auto.
    + constructor; auto.
Qed.

Lemma traced_init : traced W addr (init W addr).
Proof.
  constructor; simpl.
  - repeat constructor. exists []. split; [done|]. intros p Hp. inversion Hp.
  - constructor.
  - intros k. by rewrite lookup_empty.
  - done.
Qed.

Lemma traced_crash s : traced W addr s -> traced W addr (crash s).
Proof. intros [? ? ? ?]. by constructor. Qed.

Lemma traced_perform s i a rest :
  traced W addr s ->
  tasks s !! i = Some (a :: rest) ->
  traced W addr (perform W addr s i a rest).
Proof.
  intros Hs Htask. pose proof Hs as [Htasks Hhandled Hreceived Hwatch].
  assert (forall handled',
            (forall p, p ∈ processed s -> p ∈ handled') ->
            (forall p, a = Send p -> p ∈ handled') ->
            Forall2 (progressed handled') (spawn_log W addr (processed s))
                    (<[i := rest]> (tasks s))) as Hupdate.
  { intros handled' Hsub Ha.
    apply (Forall2_update _ _ _ i (a :: rest) rest); [|done|].
    - eapply Forall2_impl; [exact Htasks|].
      intros whole t. by apply progressed_mono.
    - intros whole. by apply progressed_step. }
  unfold perform. destruct a as [e|p|delta| |].
  - constructor; simpl; try done. by apply Hupdate.
  - destruct (handle W addr p (result s)) as [[spawned res']|] eqn:Hhandle;
      [|by apply traced_crash].
    destruct (handle_children _ _ _ _ Hhandle) as [Hchildren Hsome].
    constructor; simpl.
    + unfold spawn_log. rewrite flat_map_app. simpl.
      rewrite app_nil_r, Hchildren, app_comm_cons. apply Forall2_app.
      * apply Hupdate.
        -- intros q Hq. apply elem_of_app. by left.
        -- intros q [= <-]. apply elem_of_app. right. by constructor.
      * clear. induction spawned as [|t spawned IH]; constructor; [|done].
        exists []. split; [done|]. intros q Hq. inversion Hq.
    + apply Forall_app. split; [done|]. by repeat constructor.
    + intros k. rewrite omap_app, <- Hreceived.
      by apply (handle_received p (result s) spawned).
    + done.
  - constructor; simpl; try done. by apply Hupdate.
  - destruct (counter s - 1 <? 0); [by apply traced_crash|].
    constructor; simpl; try done. by apply Hupdate.
  - by apply traced_crash.
Qed.

Lemma reachable_traced s : reachable W addr s -> traced W addr s.
Proof.
  induction 1 as [|s c s' _ IH Hexec]; [apply traced_init|].
  unfold exec in Hexec.
  destruct (crashed s || negb (is_running (loop s))); [discriminate|].
  destruct c as [i| |].
  - destruct (tasks s !! i) as [[|a rest]|] eqn:Htask; try discriminate.
    injection Hexec as <-. by apply traced_perform.
  - destruct (watch s); try discriminate.
    destruct (counter s =? 0); [|discriminate].
    injection Hexec as <-. destruct IH. by constructor.
  - destruct (watch s); try discriminate.
    injection Hexec as <-. destruct IH. by constructor.
Qed.
End Tracing.

Section Aggregation.
Variables (W : World) (addr : string).

Lemma handle_spawn_length p res spawned res' :
  handle W addr p res = Some (spawned, res') ->
  Z.of_nat (length spawned) = spawn_count p.
Proof.
  unfold handle, spawn_count.
  destruct (String.eqb (PayLoad.Type_ p) DataTypeRepoList) eqn:Hrs.
  { destruct (PayLoad.Target p) as [items|]; [|discriminate].
    destruct (as_strings items) as [l|] eqn:Hl; [|discriminate].
    intros [= <- _]. simpl. by rewrite length_map, (as_strings_length _ _ Hl). }
  destruct (String.eqb (PayLoad.Type_ p) DataTypeTagList) eqn:Hts.
  { destruct (PayLoad.Target p) as [items|]; [|discriminate].
    destruct (as_strings items) as [l|] eqn:Hl; [|discriminate].
    intros [= <- _]. simpl. by rewrite length_map, (as_strings_length _ _ Hl). }
  simpl. destruct (String.eqb (PayLoad.Type_ p) DataTypeTagDetail).
  - destruct (PayLoad.Target p) as [|r]; [discriminate|].
    destruct (rget r "created"); [|discriminate]. by intros [= <- _].
  - by intros [= <- _].
Qed.

Lemma as_strings_Some items l : as_strings items = Some l -> items = JStr <$> l.
Proof.
  revert l. induction items as [|item rest IH]; simpl; intros l Hl.
  - by injection Hl as <-.
  - destruct item as [| | |s| |]; try discriminate.
    destruct (as_strings rest) as [l'|]; [|discriminate].
    injection Hl as <-. rewrite fmap_cons. f_equal. by apply IH.
Qed.

(** What the owner starts for a payload it has handled is read off the
    list of the payload, which holds names only. *)
Lemma handled_started p :
  legit_payload W addr p ->
  is_Some (handle W addr p ∅) ->
  children W addr p = started_for W addr p /\
  forall items, PayLoad.Target p = TargetList items ->
                items = JStr <$> strings_in items.
Proof.
  intros (full & Horigin & Hsend) [[spawned res'] Hhandle].
  unfold children. rewrite Hhandle. revert Hhandle.
  destruct Horigin as [|repo Hrepo|repo tag Hrepo Htag].
  - apply send_fetchRepos in Hsend as (repos & -> & _).
    unfold handle, started_for. simpl.
    destruct (as_strings repos) as [l|] eqn:Hl; [|discriminate].
    intros [= <- _]. pose proof (as_strings_strings_in _ _ Hl) as ->.
    split; [done|]. intros items [= <-]. by apply as_strings_Some.
  - apply send_fetchTags in Hsend as (tags & -> & _).
    unfold handle, started_for. simpl.
    destruct (as_strings tags) as [l|] eqn:Hl; [|discriminate].
    intros [= <- _]. pose proof (as_strings_strings_in _ _ Hl) as ->.
    split; [done|]. intros items [= <-]. by apply as_strings_Some.
  - apply send_fetchDetailOfTag in Hsend as (m & t & _ & ->).
    unfold handle, started_for. simpl. intros [= <- _]. split; [done|].
    intros items Htarget. discriminate Htarget.
Qed.

Lemma flat_map_ext_in {A B} (f g : A -> list B) (l : list A) :
  (forall x, x ∈ l -> f x = g x) -> flat_map f l = flat_map g l.
Proof.
  induction l as [|x l IH]; simpl; intros Heq; [done|].
  rewrite (Heq x), IH; [done| |]; set_solver.
Qed.

(** X6.  As long as the process has not panicked, the goroutines of a run
    are, position by position and in the order of their start, the root
    task and then, for every list the owner has
    handled in the order of handling, one tag task per name of a list of
    repositories and one detail task per name of a list of tags, each with
    the operations it has already performed taken off, its sends among them
    having been handled.  A handled list holds names only, so that no
    element of it is skipped and none is served twice, and a detail message
    starts nothing. *)
Theorem goroutines_started (s : state) :
  reachable W addr s ->
  crashed s = false ->
  Forall2 (fun whole t =>
             exists done_, whole = done_ ++ t /\
                           forall p, Send p ∈ done_ -> p ∈ processed s)
          (fetchRepos W addr :: flat_map (started_for W addr) (processed s))
          (tasks s) /\
  (forall p items, p ∈ processed s -> PayLoad.Target p = TargetList items ->
                   items = JStr <$> strings_in items) /\
  (forall p, p ∈ processed s ->
             Z.of_nat (length (started_for W addr p)) = spawn_count p) /\
  (forall p, p ∈ processed s -> PayLoad.Type_ p = DataTypeTagDetail ->
             started_for W addr p = []).
Proof.
  intros Hreach _.
  pose proof (reachable_traced W addr s Hreach) as [Htasks Hhandled _ _].
  pose proof (reachable_consistent W addr s Hreach) as [_ Hlegit _ _ _].
  rewrite Forall_forall in Hhandled. rewrite Forall_forall in Hlegit.
  assert (Hstarted : forall p, p ∈ processed s ->
            children W addr p = started_for W addr p /\
            forall items, PayLoad.Target p = TargetList items ->
                          items = JStr <$> strings_in items).
  { intros p Hp. apply handled_started; [by apply Hlegit|by apply Hhandled]. }
  split; [|split; [|split]].
  - unfold spawn_log in Htasks.
    rewrite (flat_map_ext_in (children W addr) (started_for W addr)) in Htasks;
      [exact Htasks|].
    intros p Hp. by apply Hstarted.
  - intros p items Hp Htarget. by apply (Hstarted p Hp).
  - intros p Hp. destruct (Hstarted p Hp) as [<- _].
    destruct (Hhandled p Hp) as [[spawned res'] Hhandle].
    destruct (handle_children W addr _ _ _ _ Hhandle) as [-> _].
    by apply (handle_spawn_length p ∅ spawned res').
  - intros p Hp Htype. unfold started_for. rewrite Htype. simpl.
    by destruct (PayLoad.Target p).
Qed.

(** X7.  The owner neither loses nor invents nor duplicates a detail: the
    sequence under a key is, in the order of arrival, the details of the
    messages handled for that repository, and the returned sequence is a
    rearrangement of it. *)
Theorem result_is_what_was_received (s : state) (k : string) :
  reachable W addr s ->
  default [] (result s !! k) = omap (detail_of k) (processed s) /\
  forall out, loop s = Returned out ->
              default [] (out !! k) ≡ₚ omap (detail_of k) (processed s).
Proof.
  intros Hreach.
  pose proof (reachable_traced W addr s Hreach) as [_ _ Hreceived _].
  split; [apply Hreceived|]. intros out Hloop.
  apply reachable_consistent in Hreach as [_ _ _ _ Hreturned].
  rewrite (Hreturned out Hloop), <- Hreceived. unfold finalize.
  rewrite lookup_fmap. destruct (result s !! k) as [received|]; simpl; [|done].
  apply sort_slice_Permutation.
Qed.

Lemma send_fetchDetailOfTag_latest repo tag p :
  Send p ∈ fetchDetailOfTag W addr repo tag ->
  exists m t,
    getForMap W (manifest_url addr repo tag) = Fetched m /\
    latestCreation W m = Latest t /\
    p = PayLoad.mk DataTypeTagDetail repo tag (TargetMap [("created", t)]).
Proof.
  unfold fetchDetailOfTag.
  destruct (getForMap W (manifest_url addr repo tag)) as [m|e].
  - destruct (latestCreation W m) as [t|e|] eqn:Hlatest;
      intros Hin; repeat (apply elem_of_cons in Hin as [Hp|Hin]; try discriminate Hp);
      try (by inversion Hin).
    injection Hp as ->. by exists m, t.
  - intros Hin.
    repeat (apply elem_of_cons in Hin as [Hp|Hin]; try discriminate Hp).
    inversion Hin.
Qed.

Lemma detail_of_Some k p d :
  detail_of k p = Some d ->
  PayLoad.Type_ p = DataTypeTagDetail /\ PayLoad.Repo p = k /\
  PayLoad.Tag p = Tag d /\
  exists r, PayLoad.Target p = TargetMap r /\ rget r "created" = Some (Created d).
Proof.
  unfold detail_of.
  destruct (String.eqb (PayLoad.Type_ p) DataTypeTagDetail) eqn:Htd; [|discriminate].
  destruct (String.eqb (PayLoad.Repo p) k) eqn:Hk; [|discriminate]. simpl.
  apply String.eqb_eq in Htd, Hk.
  destruct (PayLoad.Target p) as [|r]; [discriminate|].
  destruct (rget r "created") as [t|] eqn:Hcreated; [|discriminate].
  intros [= <-]. simpl. repeat split; try done. by exists r.
Qed.

(** X8.  Every element of a returned sequence is genuine: its tag is one of
    the tags the registry lists for that repository, the repository is one
    of the catalog, and its creation time is the one computed from the
    manifest fetched for that tag. *)
Theorem details_are_genuine (s : state) (out : ResultSet) (k : string)
    (seq : list TagDetail) (d : TagDetail) :
  reachable W addr s ->
  loop s = Returned out ->
  out !! k = Some seq ->
  d ∈ seq ->
  k ∈ catalog_repos W addr /\
  Tag d ∈ repo_tags W addr k /\
  exists m, getForMap W (manifest_url addr k (Tag d)) = Fetched m /\
            latestCreation W m = Latest (Created d).
Proof.
  intros Hreach Hloop Hseq Hd.
  pose proof (reachable_traced W addr s Hreach) as [_ _ Hreceived _].
  apply reachable_consistent in Hreach as [_ Hlegit _ _ Hreturned].
  rewrite (Hreturned out Hloop) in Hseq. unfold finalize in Hseq.
  rewrite lookup_fmap in Hseq. specialize (Hreceived k).
  destruct (result s !! k) as [received|]; [|discriminate].
  injection Hseq as <-. simpl in Hreceived.
  rewrite (sort_slice_Permutation by_created_desc received), Hreceived in Hd.
  apply list_elem_of_omap in Hd as (p & Hp & Hdetail).
  apply detail_of_Some in Hdetail as (Htype & Hrepo & Htag & r & Htarget & Hcreated).
  rewrite Forall_forall in Hlegit.
  destruct (Hlegit p Hp) as (full & Horigin & Hsend).
  destruct Horigin as [|repo Hrepo'|repo tag Hrepo' Htag'].
  - apply send_fetchRepos in Hsend as (repos & -> & _). discriminate Htype.
  - apply send_fetchTags in Hsend as (tags & -> & _). discriminate Htype.
  - apply send_fetchDetailOfTag_latest in Hsend as (m & t & Hfetch & Hlatest & ->).
    simpl in *. subst repo tag. injection Htarget as <-.
    simpl in Hcreated. injection Hcreated as <-.
    repeat split; try done. by exists m.
Qed.

Lemma finished_sends s :
  reachable W addr s ->
  (forall t, t ∈ tasks s -> t = []) ->
  forall whole p,
    whole ∈ spawn_log W addr (processed s) -> Send p ∈ whole -> p ∈ processed s.
Proof.
  intros [Htasks _ _ _]%reachable_traced Hfinished whole p Hwhole Hsend.
  apply list_elem_of_lookup in Hwhole as [i Hi].
  destruct (Forall2_lookup_l _ _ _ _ _ Htasks Hi) as (t & Ht & before & -> & Hsent).
  rewrite (Hfinished t), app_nil_r in Hsend; [auto|].
  by apply list_elem_of_lookup_2 in Ht.
Qed.

Lemma children_logged ps p t :
  p ∈ ps -> t ∈ children W addr p -> t ∈ spawn_log W addr ps.
Proof.
  intros Hp Ht. unfold spawn_log. right.
  apply list_elem_of_In, in_flat_map. exists p.
  split; by apply list_elem_of_In.
Qed.

Lemma strings_in_as_strings items l name :
  as_strings items = Some l -> name ∈ strings_in items -> name ∈ l.
Proof. intros Hl Hname. by rewrite (as_strings_strings_in items l Hl). Qed.

(** X9.  A run in which every goroutine has run to its end reports
    everything that can be reported: for every repository of the catalog
    and every tag of its tag list whose manifest is fetched and analysed,
    the detail is in the result set, and in the returned sequence of that
    repository. *)
Theorem finished_run_is_complete (s : state) (repo tag : string) (m : jmap)
    (t : Time) :
  reachable W addr s ->
  (forall t, t ∈ tasks s -> t = []) ->
  repo ∈ catalog_repos W addr ->
  tag ∈ repo_tags W addr repo ->
  getForMap W (manifest_url addr repo tag) = Fetched m ->
  latestCreation W m = Latest t ->
  mkTagDetail tag t ∈ default [] (result s !! repo) /\
  forall out, loop s = Returned out ->
              mkTagDetail tag t ∈ default [] (out !! repo).
Proof.
  intros Hreach Hfinished Hrepo Htag Hfetch Hlatest.
  pose proof (finished_sends s Hreach Hfinished) as Hsent.
  pose proof (reachable_traced W addr s Hreach) as [_ Hhandled Hreceived _].
  rewrite Forall_forall in Hhandled.
  (* the catalog has been handled *)
  unfold catalog_repos in Hrepo.
  destruct (getForMap W (catalog_url addr)) as [m0|] eqn:Hcatalog;
    [|by inversion Hrepo].
  destruct (jget m0 "repositories") as [| | | |repos|] eqn:Hrepos;
    try (by inversion Hrepo).
  set (p0 := PayLoad.mk DataTypeRepoList "" "" (TargetList repos)).
  assert (p0 ∈ processed s) as Hp0.
  { apply (Hsent (fetchRepos W addr)); [by left|].
    unfold fetchRepos. rewrite Hcatalog, Hrepos. by left. }
  assert (fetchTags W addr repo ∈ spawn_log W addr (processed s)) as Htags.
  { apply (children_logged _ p0); [done|].
    destruct (Hhandled p0 Hp0) as [[spawned res'] Hhandle].
    unfold children. rewrite Hhandle. unfold handle in Hhandle. simpl in Hhandle.
    destruct (as_strings repos) as [l|] eqn:Hl; [|discriminate].
    injection Hhandle as <- _.
    apply list_elem_of_fmap_2, (strings_in_as_strings repos l); done. }
  (* the tag list of the repository has been handled *)
  unfold repo_tags in Htag.
  destruct (getForMap W (tags_url addr repo)) as [m1|] eqn:Hlist;
    [|by inversion Htag].
  destruct (jget m1 "tags") as [| | | |tags|] eqn:Htaglist;
    try (by inversion Htag).
  set (p1 := PayLoad.mk DataTypeTagList repo "" (TargetList tags)).
  assert (p1 ∈ processed s) as Hp1.
  { apply (Hsent (fetchTags W addr repo)); [done|].
    unfold fetchTags. rewrite Hlist, Htaglist. by left. }
  assert (fetchDetailOfTag W addr repo tag ∈ spawn_log W addr (processed s))
    as Hdetail.
  { apply (children_logged _ p1); [done|].
    destruct (Hhandled p1 Hp1) as [[spawned res'] Hhandle].
    unfold children. rewrite Hhandle. unfold handle in Hhandle. simpl in Hhandle.
    destruct (as_strings tags) as [l|] eqn:Hl; [|discriminate].
    injection Hhandle as <- _.
    apply list_elem_of_fmap_2, (strings_in_as_strings tags l); done. }
  (* the detail of the tag has been handled *)
  set (p2 := PayLoad.mk DataTypeTagDetail repo tag (TargetMap [("created", t)])).
  assert (p2 ∈ processed s) as Hp2.
  { apply (Hsent (fetchDetailOfTag W addr repo tag)); [done|].
    unfold fetchDetailOfTag. rewrite Hfetch, Hlatest. by left. }
  assert (mkTagDetail tag t ∈ default [] (result s !! repo)) as Hin.
  { rewrite Hreceived. apply list_elem_of_omap. exists p2. split; [done|].
    unfold detail_of, p2. simpl. by rewrite String.eqb_refl. }
  split; [done|]. intros out Hloop.
  apply reachable_consistent in Hreach as [_ _ _ _ Hreturned].
  rewrite (Hreturned out Hloop). unfold finalize. rewrite lookup_fmap.
  destruct (result s !! repo) as [received|]; simpl in *; [|done].
  by rewrite (sort_slice_Permutation by_created_desc received).
Qed.
End Aggregation.

(** ** Progress and termination *)

Section Progress.
Variables (W : World) (addr : string).

Lemma outstanding_finished ts : (forall t, t ∈ ts -> t = []) -> outstanding ts = 0.
Proof.
  induction ts as [|t ts IH]; intros Hts; [done|].
  simpl. rewrite (Hts t), IH; [done| |by left].
  intros t' Ht'. apply Hts. by right.
Qed.

Lemma finished_can_return s :
  reachable W addr s ->
  crashed s = false ->
  loop s = Running ->
  (forall t, t ∈ tasks s -> t = []) ->
  counter s = 0 /\
  exists cs s',
    (cs = [Watch; Finish] \/ cs = [Finish]) /\
    run W addr cs s = Some s' /\
    loop s' = Returned (finalize (result s)).
Proof.
  intros Hreach Hlive Hloop Hfinished.
  assert (counter s = 0) as Hzero.
  { rewrite (reachable_outstanding W addr s Hreach).
    by apply outstanding_finished. }
  split; [done|].
  apply reachable_traced in Hreach as [_ _ _ Hwatch].
  destruct (watch s) eqn:Hw.
  - exists [Watch; Finish]. eexists. split; [by left|].
    simpl. unfold exec. rewrite Hlive, Hloop, Hw, Hzero. simpl. done.
  - exists [Finish]. eexists. split; [by right|].
    simpl. unfold exec. rewrite Hlive, Hloop, Hw. simpl. done.
  - by destruct (Hwatch Hloop).
Qed.

Lemma finished_or_not (ts : list task) :
  (forall t, t ∈ ts -> t = []) \/ exists i a rest, ts !! i = Some (a :: rest).
Proof.
  induction ts as [|t ts [IH|(i & a & rest & Hi)]].
  - left. intros t Ht. inversion Ht.
  - destruct t as [|a rest].
    + left. intros t [->|Ht]%elem_of_cons; auto.
    + right. by exists O, a, rest.
  - right. by exists (S i), a, rest.
Qed.

(** X3.  When every goroutine has run to its end the counter is zero and
    completion is detected: the watcher is released (if it has not been
    already) and the owner returns the sorted result set of that moment. *)
Theorem completion_is_reached (s : state) :
  reachable W addr s ->
  crashed s = false ->
  loop s = Running ->
  (forall t, t ∈ tasks s -> t = []) ->
  counter s = 0 /\
  exists cs s',
    (cs = [Watch; Finish] \/ cs = [Finish]) /\
    run W addr cs s = Some s' /\
    loop s' = Returned (finalize (result s)) /\
    result s' = result s.
Proof.
  intros Hreach Hlive Hloop Hfinished.
  destruct (finished_can_return s Hreach Hlive Hloop Hfinished)
    as (Hzero & cs & s' & Hcs & Hrun & Hout).
  split; [done|]. exists cs, s'. repeat split; try done.
  destruct Hcs as [-> | ->]; simpl in Hrun; unfold exec in Hrun;
    rewrite Hlive, Hloop in Hrun; simpl in Hrun;
    destruct (watch s); try discriminate.
  - rewrite Hzero in Hrun. simpl in Hrun. by injection Hrun as <-.
  - by injection Hrun as <-.
Qed.

(** X4.  A run never blocks: as long as the process has not crashed and
    the owner has not returned, some step can be taken, by a goroutine that
    has an operation left or, when there is none, by the watcher. *)
Theorem run_never_blocks (s : state) :
  reachable W addr s ->
  crashed s = false ->
  loop s = Running ->
  exists c s', exec W addr c s = Some s'.
Proof.
  intros Hreach Hlive Hloop.
  destruct (finished_or_not (tasks s)) as [Hfinished|(i & a & rest & Hi)].
  - destruct (finished_can_return s Hreach Hlive Hloop Hfinished)
      as (_ & cs & s' & Hcs & Hrun & _).
    destruct Hcs as [-> | ->]; simpl in Hrun.
    + destruct (exec W addr Watch s) as [s1|] eqn:Hstep; [|discriminate].
      by exists Watch, s1.
    + destruct (exec W addr Finish s) as [s1|] eqn:Hstep; [|discriminate].
      by exists Finish, s1.
  - exists (RunTask i). eexists. unfold exec. by rewrite Hlive, Hloop, Hi.
Qed.
End Progress.

Section Termination.
Variables (W : World) (addr : string).

Lemma cost_S_nil depth : cost W addr (S depth) [] = O.
Proof. reflexivity. Qed.

Lemma cost_S_send depth p rest :
  cost W addr (S depth) (Send p :: rest)
  = S (sum_list_with (cost W addr depth) (children W addr p)
       + cost W addr (S depth) rest)%nat.
Proof. reflexivity. Qed.

Lemma cost_S_other depth a rest :
  (forall p, a <> Send p) ->
  cost W addr (S depth) (a :: rest) = S (cost W addr (S depth) rest).
Proof. intros Ha. destruct a; try reflexivity. by destruct (Ha p). Qed.

Lemma children_detail_payload repo tag r :
  children W addr (PayLoad.mk DataTypeTagDetail repo tag (TargetMap r)) = [].
Proof. unfold children, handle. simpl. by destruct (rget r "created"). Qed.

(** A detail task starts nothing: its cost is its length at every depth. *)
Lemma cost_fetchDetailOfTag depth repo tag :
  cost W addr depth (fetchDetailOfTag W addr repo tag)
  = length (fetchDetailOfTag W addr repo tag).
Proof.
  destruct depth as [|depth]; [done|]. unfold fetchDetailOfTag.
  destruct (getForMap W (manifest_url addr repo tag)) as [m|e]; [|done].
  by destruct (latestCreation W m) as [t|e|].
Qed.

Lemma sum_list_with_ext {A} (f g : A -> nat) l :
  (forall x, x ∈ l -> f x = g x) -> sum_list_with f l = sum_list_with g l.
Proof.
  induction l as [|x l IH]; intros Hfg; [done|].
  simpl. rewrite (Hfg x), IH; [done| |by left].
  intros y Hy. apply Hfg. by right.
Qed.

Lemma children_of_tags repo tags t :
  t ∈ children W addr (PayLoad.mk DataTypeTagList repo "" (TargetList tags)) ->
  exists tag, t = fetchDetailOfTag W addr repo tag.
Proof.
  unfold children, handle. simpl.
  destruct (as_strings tags) as [l|]; [|by inversion 1].
  intros (tag & -> & _)%list_elem_of_fmap. by exists tag.
Qed.

(** A tag task starts detail tasks only: its cost is the same from depth
    one on. *)
Lemma cost_fetchTags depth repo :
  cost W addr (S (S depth)) (fetchTags W addr repo)
  = cost W addr (S depth) (fetchTags W addr repo).
Proof.
  unfold fetchTags.
  destruct (getForMap W (tags_url addr repo)) as [m|e]; [|done].
  destruct (jget m "tags") as [| | | |tags|]; try done.
  rewrite !cost_S_send. do 2 f_equal.
  apply sum_list_with_ext. intros t (tag & ->)%children_of_tags.
  by rewrite !cost_fetchDetailOfTag.
Qed.

(** The goroutines started for a payload cost at depth two what they cost
    at depth one. *)
Lemma cost_children p :
  sum_list_with (cost W addr 2) (children W addr p)
  = sum_list_with (cost W addr 1) (children W addr p).
Proof.
  apply sum_list_with_ext. intros t. unfold children, handle.
  destruct (String.eqb (PayLoad.Type_ p) DataTypeRepoList).
  { destruct (PayLoad.Target p) as [items|]; [|by inversion 1].
    destruct (as_strings items) as [l|]; [|by inversion 1].
    intros (repo & -> & _)%list_elem_of_fmap. apply cost_fetchTags. }
  destruct (String.eqb (PayLoad.Type_ p) DataTypeTagList).
  { destruct (PayLoad.Target p) as [items|]; [|by inversion 1].
    destruct (as_strings items) as [l|]; [|by inversion 1].
    intros (tag & -> & _)%list_elem_of_fmap. by rewrite !cost_fetchDetailOfTag. }
  destruct (String.eqb (PayLoad.Type_ p) DataTypeTagDetail).
  - destruct (PayLoad.Target p) as [|r]; [by inversion 1|].
    destruct (rget r "created"); by inversion 1.
  - by inversion 1.
Qed.

Lemma sum_list_with_insert {A} (f : A -> nat) l i x y :
  l !! i = Some x ->
  (sum_list_with f (<[i := y]> l) + f x = sum_list_with f l + f y)%nat.
Proof.
  revert i. induction l as [|z l IH]; intros [|i]; simpl; try discriminate.
  - intros [= ->]. lia.
  - intros Hi. specialize (IH i Hi). lia.
Qed.

Lemma perform_steps_left s i a rest :
  crashed s = false ->
  tasks s !! i = Some (a :: rest) ->
  (steps_left W addr (perform W addr s i a rest) < steps_left W addr s)%nat.
Proof.
  intros Hlive Htask.
  pose proof (sum_list_with_insert (cost W addr 2) (tasks s) i (a :: rest) rest
                Htask) as Hinsert.
  unfold steps_left at 2. rewrite Hlive.
  unfold perform. destruct a as [e|p|delta| |].
  - unfold steps_left; cbn [crashed tasks watch crash]. rewrite cost_S_other in Hinsert by done. lia.
  - destruct (handle W addr p (result s)) as [[spawned res']|] eqn:Hhandle.
    + destruct (handle_children W addr _ _ _ _ Hhandle) as [Hchildren _].
      unfold steps_left; cbn [crashed tasks watch crash].
      rewrite sum_list_with_app, <- Hchildren, cost_children.
      rewrite cost_S_send in Hinsert. lia.
    + unfold steps_left; cbn [crashed tasks watch crash]. lia.
  - unfold steps_left; cbn [crashed tasks watch crash]. rewrite cost_S_other in Hinsert by done. lia.
  - destruct (counter s - 1 <? 0); unfold steps_left; cbn [crashed tasks watch crash]; [lia|].
    rewrite cost_S_other in Hinsert by done. lia.
  - unfold steps_left; cbn [crashed tasks watch crash]. lia.
Qed.

Lemma exec_steps_left c s s' :
  exec W addr c s = Some s' ->
  (steps_left W addr s' < steps_left W addr s)%nat.
Proof.
  unfold exec.
  destruct (crashed s || negb (is_running (loop s))) eqn:Hlive; [discriminate|].
  apply orb_false_elim in Hlive as [Hlive _].
  destruct c as [i| |].
  - destruct (tasks s !! i) as [[|a rest]|] eqn:Htask; try discriminate.
    intros [= <-]. by apply perform_steps_left.
  - destruct (watch s) eqn:Hw; try discriminate.
    destruct (counter s =? 0); [|discriminate].
    intros [= <-]. unfold steps_left; cbn [crashed tasks watch crash]. rewrite Hlive, Hw. simpl. lia.
  - destruct (watch s) eqn:Hw; try discriminate.
    intros [= <-]. unfold steps_left; cbn [crashed tasks watch crash]. rewrite Hlive, Hw. simpl. lia.
Qed.

Lemma run_steps_left cs s s' :
  run W addr cs s = Some s' ->
  (length cs + steps_left W addr s' <= steps_left W addr s)%nat.
Proof.
  revert s. induction cs as [|c cs IH]; simpl; intros s.
  - intros [= <-]. lia.
  - destruct (exec W addr c s) as [s1|] eqn:Hexec; [|discriminate].
    intros Hrun. specialize (IH s1 Hrun).
    pose proof (exec_steps_left c s s1 Hexec). lia.
Qed.

(** X5.  Every run is finite, and its length is bounded by the work the
    registry declares: a run takes at most three steps more than the
    operations of the root task, of the tag tasks it makes the owner start
    and of the detail tasks these make the owner start. *)
Theorem runs_are_bounded (cs : list choice) (s : state) :
  run W addr cs (init W addr) = Some s ->
  (length cs <= 3 + cost W addr 2 (fetchRepos W addr))%nat.
Proof.
  intros Hrun. apply run_steps_left in Hrun.
  unfold steps_left at 2 in Hrun.
  cbn [init crashed tasks watch sum_list_with watcher_steps] in Hrun. lia.
Qed.
End Termination.

(** ** Runs that report nothing *)

Section Degenerate.
Variables (W : World) (addr : string).

Lemma returned_keys s out k :
  reachable W addr s -> loop s = Returned out -> k ∈ dom out ->
  k ∈ catalog_repos W addr.
Proof.
  intros Hreach Hloop Hk.
  apply reachable_consistent in Hreach as [_ Hprocessed Hkeys _ Hreturned].
  rewrite (Hreturned out Hloop) in Hk. unfold finalize in Hk.
  rewrite dom_fmap_L in Hk.
  apply Hkeys in Hk as (p & Hp & Htype & <-).
  rewrite Forall_forall in Hprocessed.
  by apply (legit_detail W addr p (Hprocessed p Hp)).
Qed.

(** X10.  When the catalog cannot be fetched the error is logged once and
    the report is empty: the owner can return, and whatever it returns is
    the empty result set. *)
Theorem failed_catalog_reports_nothing (e : error) :
  getForMap W (catalog_url addr) = FetchError e ->
  (exists s, run W addr [RunTask 0%nat; RunTask 0%nat; Watch; Finish] (init W addr)
             = Some s /\
             loop s = Returned ∅ /\ logged s = [e] /\ crashed s = false) /\
  forall s out, reachable W addr s -> loop s = Returned out -> out = ∅.
Proof.
  intros Hfetch. split.
  - eexists. split; [|split; [|split]].
    + unfold run, exec, init, fetchRepos. rewrite Hfetch. simpl. reflexivity.
    + simpl. unfold finalize. by rewrite fmap_empty.
    + done.
    + done.
  - intros s out Hreach Hloop. apply dom_empty_iff_L.
    apply set_eq. intros k. split; [|by intros ?%not_elem_of_empty].
    intros Hk%(returned_keys s out k Hreach Hloop).
    unfold catalog_repos in Hk. rewrite Hfetch in Hk. inversion Hk.
Qed.

Lemma as_strings_None items j :
  j ∈ items -> (forall name, j <> JStr name) -> as_strings items = None.
Proof.
  intros Hin Hj. induction Hin as [j rest|j item rest _ IH].
  - destruct j; try done. by destruct (Hj s).
  - simpl. destruct item; try done. by rewrite IH.
Qed.

(** X11.  A catalog whose list holds anything but strings (a number, a
    null) takes the process down: the owner panics while it handles the
    first payload it receives, the list of repositories, and in no run does
    [getRepoInfo] return or a detail reach the result set.  (Which
    goroutines the owner has started by the time it panics is not part of
    the statement.) *)
Theorem non_string_repository_crashes (m : jmap) (repos : list json) (j : json) :
  getForMap W (catalog_url addr) = Fetched m ->
  jget m "repositories" = JArr repos ->
  j ∈ repos ->
  (forall name, j <> JStr name) ->
  (exists s', exec W addr (RunTask 0) (init W addr) = Some s' /\
              crashed s' = true) /\
  forall s, reachable W addr s -> loop s = Running /\ result s = ∅.
Proof.
  intros Hfetch Hrepos Hin Hj.
  assert (exec W addr (RunTask 0) (init W addr) = Some (crash (init W addr)))
    as Hcrash.
  { unfold exec, init, fetchRepos. rewrite Hfetch, Hrepos. simpl.
    unfold perform, handle. simpl. by rewrite (as_strings_None repos j Hin Hj). }
  split; [by exists (crash (init W addr))|].
  assert (forall s, reachable W addr s -> s = init W addr \/ s = crash (init W addr))
    as Hstates.
  { induction 1 as [|s c s' _ [-> | ->] Hexec]; [by left| |discriminate].
    destruct c as [[|i]| |].
    - rewrite Hcrash in Hexec. injection Hexec as <-. by right.
    - unfold exec, init, fetchRepos in Hexec. rewrite Hfetch, Hrepos in Hexec.
      discriminate.
    - discriminate.
    - discriminate. }
  intros s Hreach. by destruct (Hstates s Hreach) as [-> | ->].
Qed.

(** X12.  A manifest with an empty history takes the process down: the
    index [h[len(h) - 1]] panics, the deferred [wg.Done()] gives the unit
    back and the process ends, with no step left for anyone. *)
Theorem empty_history_crashes (repo tag : string) (m : jmap) (s : state)
    (i : nat) :
  getForMap W (manifest_url addr repo tag) = Fetched m ->
  jget m "history" = JArr [] ->
  crashed s = false ->
  loop s = Running ->
  tasks s !! i = Some (fetchDetailOfTag W addr repo tag) ->
  0 < counter s ->
  fetchDetailOfTag W addr repo tag = [Done; Panic] /\
  exists s',
    run W addr [RunTask i; RunTask i] s = Some s' /\
    crashed s' = true /\
    counter s' = counter s - 1 /\
    processed s' = processed s /\
    forall c, exec W addr c s' = None.
Proof.
  intros Hfetch Hhist Hlive Hloop Htask Hcounter.
  assert (fetchDetailOfTag W addr repo tag = [Done; Panic]) as Htwo.
  { unfold fetchDetailOfTag, latestCreation. by rewrite Hfetch, Hhist. }
  split; [done|]. rewrite Htwo in Htask.
  assert (i < length (tasks s))%nat as Hi by (by eapply lookup_lt_Some).
  set (s1 := perform W addr s i Done [Panic]).
  assert (exec W addr (RunTask i) s = Some s1) as Hstep1.
  { by apply exec_task. }
  assert (s1 = {| counter := counter s - 1; tasks := <[i := [Panic]]> (tasks s);
                  result := result s; loop := loop s; watch := watch s;
                  logged := logged s; processed := processed s;
                  crashed := false |}) as Hs1.
  { unfold s1, perform.
    destruct (counter s - 1 <? 0) eqn:Hneg; [apply Z.ltb_lt in Hneg; lia|done]. }
  assert (exec W addr (RunTask i) s1 = Some (crash s1)) as Hstep2.
  { rewrite (exec_task W addr s1 i Panic []); [done| | |].
    - by rewrite Hs1.
    - by rewrite Hs1.
    - rewrite Hs1. simpl. by apply list_lookup_insert_eq. }
  exists (crash s1). split; [|split; [|split; [|split]]].
  - cbn [run]. by rewrite Hstep1, Hstep2.
  - done.
  - by rewrite Hs1.
  - by rewrite Hs1.
  - intros c. unfold exec. done.
Qed.
End Degenerate.

(** ** The History Analyzer and the order of the entries *)

Section HistoryOrder.
Variable W : World.




End HistoryOrder.

(** ** The Fetcher, once more *)

Section FetcherSuccess.
Variable W : World.

(** X14.  [getForMap] returns a map exactly when there is a response whose
    body decodes to that map and was read in full, or was cut by [io.EOF]
    under a 2xx status; the status code of a body read in full plays no
    part, so an error page in JSON is returned as a success. *)
Theorem getForMap_success (url : string) (m : jmap) :
  getForMap W url = Fetched m <->
  exists res,
    Get W url = GetResponse res /\
    Unmarshal W (Body res) = Some m /\
    (BodyErr res = None \/
     (BodyErr res = Some EOF /\ 200 <= StatusCode res < 300)).
Proof.
  unfold getForMap, decode, non_2xx. split.
  - destruct (Get W url) as [msg|res]; [discriminate|].
    destruct (BodyErr res) as [e|] eqn:Hread.
    + destruct e as [|msg]; simpl; [|discriminate].
      destruct (StatusCode res <? 200) eqn:Hlow; [discriminate|].
      destruct (300 <=? StatusCode res) eqn:Hhigh; [discriminate|]. simpl.
      destruct (Unmarshal W (Body res)) as [m'|] eqn:Hdecode; [|discriminate].
      intros [= <-]. exists res. repeat split; try done. right.
      apply Z.ltb_ge in Hlow. apply Z.leb_gt in Hhigh. done.
    + destruct (Unmarshal W (Body res)) as [m'|] eqn:Hdecode; [|discriminate].
      intros [= <-]. exists res. repeat split; try done. by left.
  - intros (res & -> & Hdecode & [Hread|[Hread [Hlow Hhigh]]]); rewrite Hread.
    + by rewrite Hdecode.
    + simpl. apply Z.ltb_ge in Hlow. apply Z.leb_gt in Hhigh.
      by rewrite Hlow, Hhigh, Hdecode.
Qed.
End FetcherSuccess.

(** ** Aliases and addresses *)

Section Aliases.
Variable W : World.

(** X15.  When [EqualFold] holds between every string and itself, every
    alias of the configuration is found: the lookup of the alias of an
    entry returns an entry with an equal alias, and the entry itself when
    no entry before it has an equal alias. *)
Theorem configured_alias_is_found (conf : Config) (r : Registry) :
  (forall a, EqualFold W a a = true) ->
  r ∈ Registries conf ->
  exists found,
    findRegistry W conf (Alias r) = Some found /\
    EqualFold W (Alias found) (Alias r) = true /\
    forall before after,
      Registries conf = before ++ r :: after ->
      (forall r', r' ∈ before -> EqualFold W (Alias r') (Alias r) = false) ->
      found = r.
Proof.
  intros Hrefl. unfold findRegistry.
  induction (Registries conf) as [|reg rest IH]; intros Hin; [inversion Hin|].
  simpl. destruct (EqualFold W (Alias reg) (Alias r)) eqn:Hfold.
  - exists reg. repeat split; [done|].
    intros [|reg' before] after Heq Hbefore.
    + simpl in Heq. by injection Heq.
    + simpl in Heq. injection Heq as <- _.
      rewrite (Hbefore reg) in Hfold; [discriminate|by left].
  - apply elem_of_cons in Hin as [->|Hin];
      [rewrite Hrefl in Hfold; discriminate|].
    destruct (IH Hin) as (found & Hfound & Hmatch & Hfirst).
    exists found. repeat split; [done|done|].
    intros [|reg' before] after Heq Hbefore.
    + simpl in Heq. injection Heq as -> _. rewrite Hrefl in Hfold. discriminate.
    + simpl in Heq. injection Heq as <- ->. apply (Hfirst before after eq_refl).
      intros r' Hr'. apply Hbefore. by right.
Qed.

Lemma findRegistry_loop_fill regs alias :
  findRegistry_loop W (map with_addr regs) alias
  = with_addr <$> findRegistry_loop W regs alias.
Proof.
  induction regs as [|reg regs IH]; [done|].
  simpl. by destruct (EqualFold W (Alias reg) alias).
Qed.

(** X16.  Looking an alias up in the loaded configuration is looking it up
    in the decoded one and then computing the address: the entry found has
    the address [schema://host:port] of its own fields, whatever the file
    gave as its address. *)
Theorem findRegistry_after_loading (conf : Config) (alias : string) :
  findRegistry W (fill_addrs conf) alias
  = with_addr <$> findRegistry W conf alias /\
  forall reg,
    findRegistry W (fill_addrs conf) alias = Some reg ->
    Addr reg
    = Schema reg +:+ "://" +:+ Host reg +:+ ":" +:+ format_int (Port reg).
Proof.
  assert (findRegistry W (fill_addrs conf) alias
          = with_addr <$> findRegistry W conf alias) as Heq.
  { unfold findRegistry, fill_addrs. simpl. apply findRegistry_loop_fill. }
  split; [done|]. intros reg. rewrite Heq.
  destruct (findRegistry W conf alias) as [found|]; [|discriminate].
  by intros [= <-].
Qed.

Lemma HasPrefix_append prefix s : HasPrefix (prefix +:+ s) prefix = true.
Proof.
  induction prefix as [|c prefix IH]; [done|].
  simpl. by rewrite Ascii.eqb_refl.
Qed.

(** X17.  An argument that is no alias is taken as an address, and the
    address queried always starts with [http]: the argument itself when it
    does, and [http://] followed by the argument otherwise, so that a bare
    [host:port] and its [http://host:port] name the same registry. *)
Theorem raw_address_starts_with_http (conf : Config) (arg : string) :
  findRegistry W conf arg = None ->
  HasPrefix (Addr (resolve W conf arg)) "http" = true /\
  (HasPrefix arg "http" = true -> resolve W conf arg = raw_registry arg) /\
  (HasPrefix arg "http" = false ->
   resolve W conf arg = raw_registry ("http://" +:+ arg) /\
   (findRegistry W conf ("http://" +:+ arg) = None ->
    resolve W conf ("http://" +:+ arg) = resolve W conf arg)).
Proof.
  intros Hnone. unfold resolve. rewrite Hnone.
  destruct (HasPrefix arg "http") eqn:Hprefix; simpl.
  - repeat split; try done.
  - repeat split; try done. by intros ->.
Qed.
End Aliases.

Section Ports.

Lemma format_int_inj a b : format_int a = format_int b -> a = b.
Proof.
  unfold format_int. intros Heq. apply DecimalZ.to_int_inj.
  assert (forall z, NilZero.int_of_string (NilZero.string_of_int (Z.to_int z))
                    = Some (Z.to_int z)) as Hparse.
  { intros z. apply NilZero.isi; destruct z as [|p|p]; simpl; try discriminate.
    - intros [= Hnil]. by apply DecimalPos.Unsigned.to_uint_nonnil in Hnil.
    - intros [= Hnil]. by apply DecimalPos.Unsigned.to_uint_nonnil in Hnil. }
  pose proof (Hparse a) as Ha. rewrite Heq, Hparse in Ha. by injection Ha.
Qed.

Lemma append_cancel (s a b : string) : s +:+ a = s +:+ b -> a = b.
Proof. induction s as [|c s IH]; simpl; [done|]. intros [= Heq]. auto. Qed.

(** X18.  Two entries with the same schema and host get the same address
    exactly when they have the same port. *)
Theorem address_tells_ports_apart (r1 r2 : Registry) :
  Schema r1 = Schema r2 ->
  Host r1 = Host r2 ->
  (Addr (with_addr r1) = Addr (with_addr r2) <-> Port r1 = Port r2).
Proof.
  intros Hschema Hhost. simpl. rewrite Hschema, Hhost. split.
  - intros Heq. do 4 apply append_cancel in Heq. by apply format_int_inj.
  - by intros ->.
Qed.
End Ports.

(** ** Start-up *)

Section StartUp.
Variables (P : Platform) (W : World).

Lemma loadConfig_existing path disk b :
  disk !! path = Some b -> loadConfig P path disk = (disk, loaded P b).
Proof.
  intros Hfile. unfold loadConfig, loaded. rewrite Hfile. simpl. rewrite Hfile.
  by destruct (DecodeConfig P b).
Qed.

Lemma loadConfig_missing path disk :
  disk !! path = None ->
  loadConfig P path disk
  = if Writable P path
    then (<[path := defaultConfig]> disk, loaded P defaultConfig)
    else (disk, LoadError).
Proof.
  intros Hfile. unfold loadConfig, initConfig, loaded. rewrite Hfile.
  destruct (Writable P path); simpl.
  - rewrite lookup_insert_eq. by destruct (DecodeConfig P defaultConfig).
  - by rewrite Hfile.
Qed.

(** X19.  [loadConfig] writes at most at the path of the configuration:
    it leaves an existing file as it is, creates the default file when
    there is none and the path can be written, and never touches another
    path; loading again changes nothing on the disk and gives the same
    configuration. *)
Theorem loadConfig_disk (path : string) (disk : gmap string string) :
  (forall b, disk !! path = Some b -> (loadConfig P path disk).1 = disk) /\
  (disk !! path = None -> Writable P path = true ->
   (loadConfig P path disk).1 = <[path := defaultConfig]> disk) /\
  (forall other, other <> path ->
                 (loadConfig P path disk).1 !! other = disk !! other) /\
  loadConfig P path (loadConfig P path disk).1 = loadConfig P path disk.
Proof.
  destruct (disk !! path) as [b|] eqn:Hfile.
  - rewrite (loadConfig_existing path disk b Hfile). simpl.
    repeat split; try done. by apply loadConfig_existing.
  - rewrite (loadConfig_missing path disk Hfile).
    destruct (Writable P path) eqn:Hwritable; simpl.
    + split; [done|]. split; [done|]. split.
      * intros other Hother. by rewrite lookup_insert_ne.
      * apply loadConfig_existing, lookup_insert_eq.
    + split; [done|]. split; [done|]. split; [done|].
      by rewrite (loadConfig_missing path disk Hfile), Hwritable.
Qed.

(** X20.  [regman.go] does not fall back on raw addresses when it has no
    configuration file: [localConf] stays nil, and whatever its arguments
    are no registry is queried; the process ends in the flag package when
    its first argument is taken for a flag, and panics otherwise (in
    [flag.Parse] or [main] without an argument, in [findRegistry] with
    one). *)
Theorem regman_needs_config (disk : gmap string string) (args : list string) :
  disk !! regman_config_path P = None ->
  (forall reg, regman_start P W disk args <> Queries reg) /\
  (regman_start P W disk args = Exits <->
   exists prog arg rest, args = prog :: arg :: rest /\ is_flag arg = true) /\
  (regman_start P W disk args = Panics <->
   ~ exists prog arg rest, args = prog :: arg :: rest /\ is_flag arg = true).
Proof.
  intros Hfile. unfold regman_start, regman_loadConfig. rewrite Hfile.
  destruct args as [|prog [|arg rest]]; simpl.
  - split; [done|]. split; split; try done.
    + by intros (prog & arg & rest & Heq & _).
    + by intros _ (prog & arg & rest & Heq & _).
  - split; [done|]. split; split; try done.
    + by intros (prog' & arg & rest & Heq & _).
    + by intros _ (prog' & arg & rest & Heq & _).
  - destruct (is_flag arg) eqn:Hflag.
    + split; [done|]. split; split; try done.
      * intros _. by exists prog, arg, rest.
      * intros Hnot. exfalso. apply Hnot. by exists prog, arg, rest.
    + split; [done|]. split; split; try done.
      * intros (prog' & arg' & rest' & Heq & Hflag').
        injection Heq as -> -> ->. congruence.
      * intros _ (prog' & arg' & rest' & Heq & Hflag').
        injection Heq as -> -> ->. congruence.
Qed.

(** X21.  On a first start, with no configuration file, a home that can be
    written and a default configuration that decodes,
    [list_docker_registry_images.go] creates the file and goes on to query
    the registry of its argument; the next start finds the file and does
    the same without writing. *)
Theorem first_start_creates_config (disk : gmap string string)
    (conf : Config) (prog arg : string) (rest : list string) :
  disk !! configFilePath P = None ->
  Writable P (configFilePath P) = true ->
  DecodeConfig P defaultConfig = Decoded conf ->
  start P W disk (prog :: arg :: rest)
  = (<[configFilePath P := defaultConfig]> disk,
     Queries (resolve W (fill_addrs conf) arg)) /\
  start P W (<[configFilePath P := defaultConfig]> disk) (prog :: arg :: rest)
  = (<[configFilePath P := defaultConfig]> disk,
     Queries (resolve W (fill_addrs conf) arg)).
Proof.
  intros Hfile Hwritable Hdecode.
  unfold start, loadConfig, initConfig.
  rewrite Hfile, Hwritable, !lookup_insert_eq, Hdecode. done.
Qed.

(** A configuration file that decodes without an error and leaves no usable
    configuration (it holds [null]) makes the address loop panic: neither
    program gets as far as a query. *)
Lemma unusable_config_panics (disk : gmap string string) (b : string)
    (prog arg : string) (rest : list string) :
  DecodeConfig P b = Unusable ->
  (disk !! configFilePath P = Some b ->
   start P W disk (prog :: arg :: rest) = (disk, Panics)) /\
  (disk !! regman_config_path P = Some b -> is_flag arg = false ->
   regman_start P W disk (prog :: arg :: rest) = Panics).
Proof.
  intros Hdecode. split.
  - intros Hfile. unfold start.
    rewrite (loadConfig_existing _ _ _ Hfile). unfold loaded. by rewrite Hdecode.
  - intros Hfile Hflag. unfold regman_start, regman_loadConfig.
    by rewrite Hflag, Hfile, Hdecode.
Qed.
End StartUp.

(** ** The examples, continued *)

Lemma reachable_default W addr cs :
  reachable W addr (default (init W addr) (run W addr cs (init W addr))).
Proof.
  destruct (run W addr cs (init W addr)) as [s|] eqn:Hrun; simpl.
  - eapply run_reachable; [apply reach_init|exact Hrun].
  - apply reach_init.
Qed.

Lemma ascii_fold_refl s : ascii_fold s s = true.
Proof. induction s as [|c s IH]; [done|]. simpl. by rewrite N.eqb_refl. Qed.

Lemma counter_is_outstanding_witness :
  0 <= counter flaky_raced /\ counter flaky_raced = outstanding (tasks flaky_raced).
Proof.
  apply (counter_is_outstanding demo "http://flaky" flaky_raced).
  apply reachable_default.
Defined.

Example raced_counter_is_zero :
  counter flaky_raced = 0 /\
  outstanding (tasks flaky_raced) = (1 - 2) + 0 + 1.
Proof. split; reflexivity. Qed.

Lemma counter_counts_unretired_witness :
  counter reg_listed = live_units (tasks reg_listed) /\
  (counter reg_listed = 0 -> forall t, t ∈ tasks reg_listed -> Done ∉ t).
Proof.
  apply (counter_counts_unretired demo "http://reg" reg_listed).
  - apply reachable_default.
  - assert (tasks reg_listed
            = [ []; fetchTags demo "http://reg" "a"; fetchTags demo "http://reg" "b" ])
      as -> by (vm_compute; reflexivity).
    intros t Ht (delta & rest & ->).
    vm_compute in Ht.
    repeat (apply elem_of_cons in Ht as [Ht|Ht]; [discriminate Ht|]).
    inversion Ht.
Defined.

Example listed_counter_is_two :
  counter reg_listed = 2 /\ live_units (tasks reg_listed) = 2.
Proof. split; reflexivity. Qed.

Lemma goroutines_started_witness :
  Forall2 (fun whole t =>
             exists done_, whole = done_ ++ t /\
                           forall p, Send p ∈ done_ -> p ∈ processed reg_finished)
          (fetchRepos demo "http://reg"
             :: flat_map (started_for demo "http://reg") (processed reg_finished))
          (tasks reg_finished) /\
  (forall p items, p ∈ processed reg_finished ->
                   PayLoad.Target p = TargetList items ->
                   items = JStr <$> strings_in items) /\
  (forall p, p ∈ processed reg_finished ->
             Z.of_nat (length (started_for demo "http://reg" p)) = spawn_count p) /\
  (forall p, p ∈ processed reg_finished ->
             PayLoad.Type_ p = DataTypeTagDetail ->
             started_for demo "http://reg" p = []).
Proof.
  apply (goroutines_started demo "http://reg" reg_finished).
  - apply reachable_default.
  - reflexivity.
Defined.

Example reg_starts_five_goroutines : length (tasks reg_finished) = 5%nat.
Proof. reflexivity. Qed.

Lemma result_is_what_was_received_witness :
  default [] (result reg_finished !! "a")
  = omap (detail_of "a") (processed reg_finished) /\
  forall out, loop reg_finished = Returned out ->
              default [] (out !! "a") ≡ₚ omap (detail_of "a") (processed reg_finished).
Proof.
  apply (result_is_what_was_received demo "http://reg" reg_finished "a").
  apply reachable_default.
Defined.

Lemma details_are_genuine_witness :
  "a" ∈ catalog_repos demo "http://reg" /\
  "v2" ∈ repo_tags demo "http://reg" "a" /\
  exists m, getForMap demo (manifest_url "http://reg" "a" "v2") = Fetched m /\
            latestCreation demo m = Latest jan2_time.
Proof.
  apply (details_are_genuine demo "http://reg" reg_finished reg_out "a"
           [mkTagDetail "v2" jan2_time; mkTagDetail "v1" jan1_time]
           (mkTagDetail "v2" jan2_time)).
  - apply reachable_default.
  - vm_compute. reflexivity.
  - vm_compute. reflexivity.
  - by left.
Defined.

Lemma finished_run_is_complete_witness :
  mkTagDetail "v1" jan1_time ∈ default [] (result reg_finished !! "a") /\
  forall out, loop reg_finished = Returned out ->
              mkTagDetail "v1" jan1_time ∈ default [] (out !! "a").
Proof.
  apply (finished_run_is_complete demo "http://reg" reg_finished "a" "v1" doc_v1
           jan1_time).
  - apply reachable_default.
  - assert (tasks reg_finished = [ []; []; []; []; [] ]) as ->
      by (vm_compute; reflexivity).
    intros t Ht.
    repeat (apply elem_of_cons in Ht as [Ht|Ht]; [done|]).
    inversion Ht.
  - vm_compute. by left.
  - vm_compute. by left.
  - reflexivity.
  - reflexivity.
Defined.

Lemma completion_is_reached_witness :
  counter reg_drained = 0 /\
  exists cs s',
    (cs = [Watch; Finish] \/ cs = [Finish]) /\
    run demo "http://reg" cs reg_drained = Some s' /\
    loop s' = Returned (finalize (result reg_drained)) /\
    result s' = result reg_drained.
Proof.
  apply (completion_is_reached demo "http://reg" reg_drained).
  - apply reachable_default.
  - reflexivity.
  - reflexivity.
  - assert (tasks reg_drained = [ []; []; []; []; [] ]) as ->
      by (vm_compute; reflexivity).
    intros t Ht.
    repeat (apply elem_of_cons in Ht as [Ht|Ht]; [done|]).
    inversion Ht.
Defined.

Lemma run_never_blocks_witness :
  exists c s', exec demo "http://flaky" c flaky_raced = Some s'.
Proof.
  apply (run_never_blocks demo "http://flaky" flaky_raced).
  - apply reachable_default.
  - reflexivity.
  - reflexivity.
Defined.

Lemma runs_are_bounded_witness :
  (length schedule_reg <= 3 + cost demo "http://reg" 2 (fetchRepos demo "http://reg"))%nat.
Proof.
  apply (runs_are_bounded demo "http://reg" schedule_reg reg_finished).
  vm_compute. reflexivity.
Defined.

Example reg_run_length_and_bound :
  length schedule_reg = 15%nat /\
  cost demo "http://reg" 2 (fetchRepos demo "http://reg") = 13%nat.
Proof. split; reflexivity. Qed.

Lemma failed_catalog_reports_nothing_witness :
  (exists s, run demo "http://nowhere" [RunTask 0%nat; RunTask 0%nat; Watch; Finish]
                 (init demo "http://nowhere") = Some s /\
             loop s = Returned ∅ /\
             logged s = [TransportError "no such host"] /\ crashed s = false) /\
  forall s out, reachable demo "http://nowhere" s -> loop s = Returned out -> out = ∅.
Proof.
  apply (failed_catalog_reports_nothing demo "http://nowhere"
           (TransportError "no such host")).
  reflexivity.
Defined.

Lemma non_string_repository_crashes_witness :
  (exists s', exec bad "http://worse" (RunTask 0) (init bad "http://worse")
              = Some s' /\ crashed s' = true) /\
  forall s, reachable bad "http://worse" s -> loop s = Running /\ result s = ∅.
Proof.
  apply (non_string_repository_crashes bad "http://worse" doc_catalog_null
           [JStr "a"; JNull] JNull).
  - reflexivity.
  - reflexivity.
  - right. by left.
  - discriminate.
Defined.

Lemma empty_history_crashes_witness :
  fetchDetailOfTag bad "http://bad" "a" "empty" = [Done; Panic] /\
  exists s',
    run bad "http://bad" [RunTask 2%nat; RunTask 2%nat] bad_listed = Some s' /\
    crashed s' = true /\
    counter s' = counter bad_listed - 1 /\
    processed s' = processed bad_listed /\
    forall c, exec bad "http://bad" c s' = None.
Proof.
  apply (empty_history_crashes bad "http://bad" "a" "empty" doc_no_history
           bad_listed 2%nat).
  - reflexivity.
  - reflexivity.
  - reflexivity.
  - reflexivity.
  - reflexivity.
  - vm_compute. reflexivity.
Defined.


Lemma configured_alias_is_found_witness :
  exists found,
    findRegistry demo demo_registries "reg01" = Some found /\
    EqualFold demo (Alias found) "reg01" = true /\
    forall before after,
      Registries demo_registries
      = before ++ mkRegistry "reg01" "reg01.example.org" 55001 "http"
                             "http://reg01.example.org:55001" :: after ->
      (forall r', r' ∈ before -> EqualFold demo (Alias r') "reg01" = false) ->
      found = mkRegistry "reg01" "reg01.example.org" 55001 "http"
                         "http://reg01.example.org:55001".
Proof.
  apply (configured_alias_is_found demo demo_registries
           (mkRegistry "reg01" "reg01.example.org" 55001 "http"
                       "http://reg01.example.org:55001")).
  - apply ascii_fold_refl.
  - right. right. by left.
Defined.

Lemma raw_address_starts_with_http_witness :
  HasPrefix (Addr (resolve demo demo_registries "host:5000")) "http" = true /\
  (HasPrefix "host:5000" "http" = true ->
   resolve demo demo_registries "host:5000" = raw_registry "host:5000") /\
  (HasPrefix "host:5000" "http" = false ->
   resolve demo demo_registries "host:5000" = raw_registry "http://host:5000" /\
   (findRegistry demo demo_registries "http://host:5000" = None ->
    resolve demo demo_registries "http://host:5000"
    = resolve demo demo_registries "host:5000")).
Proof.
  apply (raw_address_starts_with_http demo demo_registries "host:5000").
  reflexivity.
Defined.

Lemma address_tells_ports_apart_witness :
  Addr (with_addr (mkRegistry "reg01" "reg01.example.org" 443 "http" ""))
  = Addr (with_addr (mkRegistry "other" "reg01.example.org" 55001 "http" "x"))
  <-> 443 = 55001.
Proof.
  apply (address_tells_ports_apart
           (mkRegistry "reg01" "reg01.example.org" 443 "http" "")
           (mkRegistry "other" "reg01.example.org" 55001 "http" "x"));
    reflexivity.
Defined.

Lemma regman_needs_config_witness :
  (forall reg, regman_start demo_platform demo ∅ ["regman"; "host:5000"]
               <> Queries reg) /\
  (regman_start demo_platform demo ∅ ["regman"; "host:5000"] = Exits <->
   exists prog arg rest,
     ["regman"; "host:5000"] = prog :: arg :: rest /\ is_flag arg = true) /\
  (regman_start demo_platform demo ∅ ["regman"; "host:5000"] = Panics <->
   ~ exists prog arg rest,
       ["regman"; "host:5000"] = prog :: arg :: rest /\ is_flag arg = true).
Proof.
  apply (regman_needs_config demo_platform demo ∅ ["regman"; "host:5000"]).
  reflexivity.
Defined.

Example regman_without_config :
  regman_start demo_platform demo ∅ ["regman"; "host:5000"] = Panics /\
  regman_start demo_platform demo ∅ ["regman"; "-x"] = Exits /\
  regman_start demo_platform demo ∅ ["regman"; "--"; "host:5000"] = Panics /\
  regman_start demo_platform demo ∅ ["regman"] = Panics.
Proof. repeat split; reflexivity. Qed.

Lemma first_start_creates_config_witness :
  start demo_platform demo ∅ ["lsreg"; "REG01"]
  = (<[configFilePath demo_platform := defaultConfig]> ∅,
     Queries (resolve demo (fill_addrs default_registries) "REG01")) /\
  start demo_platform demo (<[configFilePath demo_platform := defaultConfig]> ∅)
        ["lsreg"; "REG01"]
  = (<[configFilePath demo_platform := defaultConfig]> ∅,
     Queries (resolve demo (fill_addrs default_registries) "REG01")).
Proof.
  apply (first_start_creates_config demo_platform demo ∅ default_registries
           "lsreg" "REG01" []); reflexivity.
Defined.

Example first_start_resolves_alias :
  resolve demo (fill_addrs default_registries) "REG01"
  = mkRegistry "reg01" "reg01.example.org" 443 "https"
               "https://reg01.example.org:443".
Proof. reflexivity. Qed.
